(** * doctor: health-check registry, runners and status bitmask

  A shallow embedding of package [doctor] (the [Doctor] type with
  [Investigate], [Healthy], [update], [failing] and the per-check
  goroutine [start]) together with the properties of its registration,
  recording and aggregation logic. *)

From Stdlib Require Import ZArith Lia Bool Ascii DecimalString.
From stdpp Require Import base option list strings gmap fin_maps pretty.

Local Open Scope Z_scope.

(** ** Machine integers

  [healthStatus.status] is a [uint64]; the operations the package applies
  to it are written out on [Z] with their 64-bit wrap-around. *)

Module U64.

Definition width : Z := 64.
Definition modulus : Z := 2 ^ width.

Definition in_range (x : Z) : Prop := 0 <= x < modulus.

(** Truncation of a mathematical integer to 64 bits. *)
Definition wrap (x : Z) : Z := x mod modulus.

(** [1 << pos] at type uint64. Go shifts by any non-negative amount; a
    shift count of 64 or more leaves no bit inside the word. *)
Definition shl1 (pos : Z) : Z := wrap (Z.shiftl 1 pos).

(** [^x] at type uint64: every one of the 64 bits flipped. *)
Definition lnot (x : Z) : Z := Z.lxor x (Z.ones width).

End U64.

(** ** Data model *)

(** A Go [error] value is observed by the package only through [== nil] and
  [Error()]: [None] is [nil], [Some t] an error whose text is [t]. *)
Definition error : Type := option string.

(** [errors.New]. *)
Definition errors_New (text : string) : error := Some text.

Section Doctor.

(** Function values stored in a [Check]. A handler is only ever called by
    the goroutine of a cycle, and its outcome enters the model as an
    event; an aspect is applied through [call_aspect]. *)
Context {handler aspect : Type}.

Record Check : Type := mkCheck {
  Name : string;
  Handler : handler;
  Interval : Z;
  Timeout : Z;
  Aspect : option aspect
}.

Variable call_aspect : aspect -> Check -> error -> error.

(** [healthCheckStatus]: the embedded [Check] and the state fields. *)
Record healthCheckStatus : Type := mkStatus {
  check : Check;
  healthy : bool;
  msg : string;
  pos : Z
}.

(** The registry holds pointers. [heap] lists the [healthCheckStatus]
    objects allocated so far, a pointer is an index into it; [items] is
    [health.checks.items] and [status] is [health.status.status]. *)
Record Doctor : Type := mkDoctor {
  heap : list healthCheckStatus;
  items : gmap string nat;
  status : Z
}.

Definition NewDoctor : Doctor :=
  {| heap := []; items := ∅; status := 0 |}.

(** [healthStatus.update]. *)
Definition update (s : Z) (pos : Z) (value : bool) : Z :=
  if negb value then Z.lor s (U64.shl1 pos)
  else Z.land s (U64.lnot (U64.shl1 pos)).

(** [Doctor.Healthy]. *)
Definition Healthy (d : Doctor) : bool := status d =? 0.

(** The body of the loop of [failing] for the entry pointing at [p]: the
    message read through the pointer, when [len(hc.msg) > 0]. *)
Definition message_of (hs : list healthCheckStatus) (p : nat) : option string :=
  match hs !! p with
  | Some hc => if (0 <? String.length (msg hc))%nat then Some (msg hc) else None
  | None => None
  end.

(** [healthChecks.failing]: a new map with one entry per entry of [items]
    whose message is not empty, under the same name. *)
Definition failing (d : Doctor) : gmap string string :=
  omap (message_of (heap d)) (items d).

(** ** Recording a result

    The tail of the goroutine of one cycle, from the return of
    [hc.Handler(subctx)] on: the aspect, when there is one, replaces the
    result, and under the lock of [hc] the bit and the two state fields are
    written. [p] is the receiver [hc]. *)

Definition transformed (c : Check) (raw : error) : error :=
  match Aspect c with
  | Some a => call_aspect a c raw
  | None => raw
  end.

Definition set_state (hc : healthCheckStatus) (h : bool) (m : string)
  : healthCheckStatus :=
  {| check := check hc; healthy := h; msg := m; pos := pos hc |}.

Definition record (d : Doctor) (p : nat) (raw : error) : Doctor :=
  match heap d !! p with
  | None => d
  | Some hc =>
      match transformed (check hc) raw with
      | None =>
          {| heap := <[p := set_state hc true ""]> (heap d);
             items := items d;
             status := update (status d) (pos hc) true |}
      | Some text =>
          {| heap := <[p := set_state hc false text]> (heap d);
             items := items d;
             status := update (status d) (pos hc) false |}
      end
  end.

(** ** Goroutines

    [Investigate] starts one goroutine running [start] per accepted check;
    every call of [check()] inside it starts one more goroutine around the
    handler. The model is an interleaving semantics: a [World] is the shared
    data plus the control point of every goroutine, and an [event] is one
    move of one goroutine or of the environment (a timer, a cancellation). *)

(** Where the goroutine running [start] stands. *)
Inductive phase : Type :=
| AtCheck              (* head of the [for] loop, about to call [check()] *)
| Waiting (k : nat)    (* in [check()], blocked on [<-subctx.Done()] of cycle [k] *)
| Sleeping             (* in the [select] after [check()] *)
| Returned.            (* [start] has returned *)

Record runner : Type := mkRunner {
  ctx : nat;           (* the context handed to [Investigate] *)
  cycles : nat;        (* calls of [check()] made so far *)
  pc : phase
}.

Definition set_pc (ru : runner) (ph : phase) : runner :=
  {| ctx := ctx ru; cycles := cycles ru; pc := ph |}.

(** [runners] runs parallel to [heap]: entry [p] is the goroutine started
    for the object at [p]. [handlers] lists the handler goroutines that
    have not finished, as (object, cycle); [cancelled] the contexts whose
    [Done()] channel is closed. *)
Record World : Type := mkWorld {
  doctor : Doctor;
  runners : list runner;
  handlers : list (nat * nat);
  cancelled : list nat
}.

Definition NewWorld : World :=
  {| doctor := NewDoctor; runners := []; handlers := []; cancelled := [] |}.

Definition with_runners (w : World) (rs : list runner) : World :=
  {| doctor := doctor w; runners := rs;
     handlers := handlers w; cancelled := cancelled w |}.

(** The bound tested by [Investigate] and the text of the error it returns
    past that bound. *)
Definition treshold : Z := 63.
Definition treshold_exceeded : string := "health-check treshold (64) exceeded".

(** [Doctor.Investigate]. *)
Definition Investigate (c : nat) (healthCheck : Check) (w : World)
  : World * error :=
  let d := doctor w in
  let pos := Z.of_nat (size (items d)) in
  if pos <? treshold then
    let check := {| check := healthCheck; healthy := false;
                    msg := "[n/a]"; pos := pos |} in
    let p := length (heap d) in
    ({| doctor :=
          {| heap := heap d ++ [check];
             items := <[Name healthCheck := p]> (items d);
             status := update (status d) pos false |};
        runners := runners w ++ [{| ctx := c; cycles := 0; pc := AtCheck |}];
        handlers := handlers w;
        cancelled := cancelled w |}, None)
  else (w, errors_New treshold_exceeded).

(** What a call of the handler ends in. *)
Inductive returned : Type :=
| Returns (raw : error)
| Panics (v : string).

Inductive event : Type :=
| EvCheck (p : nat)        (* runner [p] calls [check()]: a new subctx, a new
                              handler goroutine, then [<-subctx.Done()] *)
| EvDeadline (p : nat)     (* the deadline of the subctx runner [p] waits on passes *)
| EvHandler (p k : nat) (res : returned)
                           (* the handler call of cycle [k] of object [p] ends *)
| EvAfter (p : nat)        (* the timer of [time.After(hc.Interval)] fires *)
| EvCancel (c : nat)       (* context [c] is cancelled *)
| EvDone (p : nat).        (* runner [p] receives from a channel closed by the
                              cancellation of its context *)

Inductive outcome : Type :=
| Next (w : World)
| Stuck                    (* the event cannot happen in this world *)
| Crash (v : string).      (* the process has died of the panic [v] *)

(** The deferred [cancel()] of cycle [k]: closes that cycle's subctx, which
    releases the runner when it is the one still waiting on it. *)
Definition cancel (rs : list runner) (p k : nat) : list runner :=
  match rs !! p with
  | Some ru =>
      match pc ru with
      | Waiting k' => if (k' =? k)%nat then <[p := set_pc ru Sleeping]> rs else rs
      | _ => rs
      end
  | None => rs
  end.

(** Taking the handler goroutine [x] off the list of the running ones;
    [None] when no such goroutine is running. *)
Fixpoint finish (x : nat * nat) (hs : list (nat * nat))
  : option (list (nat * nat)) :=
  match hs with
  | [] => None
  | y :: hs' =>
      if bool_decide (x = y) then Some hs'
      else match finish x hs' with
           | Some hs'' => Some (y :: hs'')
           | None => None
           end
  end.

Definition step (w : World) (e : event) : outcome :=
  match e with
  | EvCheck p =>
      match runners w !! p with
      | Some ru =>
          match pc ru with
          | AtCheck =>
              let k := cycles ru in
              Next {| doctor := doctor w;
                      runners := <[p := {| ctx := ctx ru; cycles := S k;
                                           pc := Waiting k |}]> (runners w);
                      handlers := (p, k) :: handlers w;
                      cancelled := cancelled w |}
          | _ => Stuck
          end
      | None => Stuck
      end
  | EvDeadline p =>
      match runners w !! p with
      | Some ru =>
          match pc ru with
          | Waiting _ => Next (with_runners w (<[p := set_pc ru Sleeping]> (runners w)))
          | _ => Stuck
          end
      | None => Stuck
      end
  | EvHandler p k res =>
      match finish (p, k) (handlers w) with
      | Some hs =>
          match res with
          | Returns raw =>
              Next {| doctor := record (doctor w) p raw;
                      runners := cancel (runners w) p k;
                      handlers := hs;
                      cancelled := cancelled w |}
          | Panics v => Crash v
          end
      | None => Stuck
      end
  | EvAfter p =>
      match runners w !! p with
      | Some ru =>
          match pc ru with
          | Sleeping => Next (with_runners w (<[p := set_pc ru AtCheck]> (runners w)))
          | _ => Stuck
          end
      | None => Stuck
      end
  | EvCancel c =>
      Next {| doctor := doctor w; runners := runners w;
              handlers := handlers w; cancelled := c :: cancelled w |}
  | EvDone p =>
      match runners w !! p with
      | Some ru =>
          if bool_decide (ctx ru ∈ cancelled w) then
            match pc ru with
            | Waiting _ => Next (with_runners w (<[p := set_pc ru Sleeping]> (runners w)))
            | Sleeping => Next (with_runners w (<[p := set_pc ru Returned]> (runners w)))
            | _ => Stuck
            end
          else Stuck
      | None => Stuck
      end
  end.

Fixpoint run (es : list event) (w : World) : outcome :=
  match es with
  | [] => Next w
  | e :: es' =>
      match step w e with
      | Next w' => run es' w'
      | o => o
      end
  end.

(** What can happen to a world: a caller invokes [Investigate], or one of
    the events above takes place. *)
Inductive action : Type :=
| Call (c : nat) (healthCheck : Check)
| Event (e : event).

Definition act (w : World) (a : action) : outcome :=
  match a with
  | Call c healthCheck => Next (fst (Investigate c healthCheck w))
  | Event e => step w e
  end.

Fixpoint acts (l : list action) (w : World) : outcome :=
  match l with
  | [] => Next w
  | a :: l' =>
      match act w a with
      | Next w' => acts l' w'
      | o => o
      end
  end.

(** The events of [n] whole cycles of runner [p], the first of them being
    cycle [k]: [check()] is called, the handler returns [raw] before the
    deadline, and the interval elapses. *)
Fixpoint cycles_of (p k n : nat) (raw : error) : list event :=
  match n with
  | O => []
  | S n' =>
      EvCheck p :: EvHandler p k (Returns raw) :: EvAfter p
        :: cycles_of p (S k) n' raw
  end.


(** What every world the package can get into satisfies: the status fits a
    uint64 and every stored position is one that [Investigate] hands out. *)
Definition well_formed (d : Doctor) : Prop :=
  U64.in_range (status d) /\
  forall (i : nat) hc, heap d !! i = Some hc -> 0 <= pos hc < treshold.

(** Registering a list of (context, check) pairs in order, with the result
    of every call. *)
Fixpoint register_all (cs : list (nat * Check)) (w : World)
  : World * list error :=
  match cs with
  | [] => (w, [])
  | (c, hc) :: cs' =>
      let '(w1, e) := Investigate c hc w in
      let '(w2, es) := register_all cs' w1 in
      (w2, e :: es)
  end.

End Doctor.

Arguments Check : clear implicits.
Arguments healthCheckStatus : clear implicits.
Arguments Doctor : clear implicits.
Arguments World : clear implicits.
Arguments NewDoctor : clear implicits.
Arguments NewWorld : clear implicits.
Arguments outcome : clear implicits.

(** The number an error text announces between parentheses. *)
Fixpoint after_paren (s : string) : string :=
  match s with
  | EmptyString => EmptyString
  | String c s' => if Ascii.eqb c "("%char then s' else after_paren s'
  end.

Fixpoint until_paren (s : string) : string :=
  match s with
  | EmptyString => EmptyString
  | String c s' => if Ascii.eqb c ")"%char then EmptyString else String c (until_paren s')
  end.

Definition announced (e : error) : option Z :=
  match e with
  | Some text =>
      match NilEmpty.uint_of_string (until_paren (after_paren text)) with
      | Some u => Some (Z.of_N (N.of_uint u))
      | None => None
      end
  | None => None
  end.

(** ** A concrete instance

    Handlers stay opaque (their results are events); an aspect is a pure
    function of the name of the check and of the raw result. *)

Module Sample.

Definition handler : Type := unit.
Definition aspect : Type := string -> error -> error.

Definition call (a : aspect) (c : Check handler aspect) (raw : error) : error :=
  a (Name c) raw.

(** An aspect that turns every result into success, and one that turns
    success into an error. *)
Definition forgive : aspect := fun _ _ => None.
Definition distrust : aspect :=
  fun n raw => match raw with None => Some (String.append "unverified: " n) | e => e end.

Definition second : Z := 1000000000.

Definition plain (n : string) : Check handler aspect :=
  {| Name := n; Handler := tt; Interval := 5 * second;
     Timeout := second; Aspect := None |}.

Definition with_aspect (n : string) (a : aspect) : Check handler aspect :=
  {| Name := n; Handler := tt; Interval := 5 * second;
     Timeout := second; Aspect := Some a |}.

(** [n] checks named "0", "1", ..., all registered with context 0. *)
Definition numbered (n : nat) : list (nat * Check handler aspect) :=
  (fun i : nat => (0%nat, plain (pretty i))) <$> seq 0 n.

Definition world0 : World handler aspect := NewWorld handler aspect.

(** The world after the calls [Investigate(ctx0, c)] for the checks of
    [cs], in order. *)
Definition registered (cs : list (Check handler aspect)) : World handler aspect :=
  fst (register_all ((fun c => (0%nat, c)) <$> cs) world0).

Definition world_of (o : outcome handler aspect) : World handler aspect :=
  match o with
  | Next w => w
  | _ => world0
  end.

Definition db : Check handler aspect := plain "db".
Definition cache : Check handler aspect := plain "cache".
Definition lenient_db : Check handler aspect := with_aspect "db" forgive.

(** "db" is registered, its first cycle has begun, the handler has not
    returned yet. *)
Definition first_cycle (c : Check handler aspect) : list (action (handler := handler) (aspect := aspect)) :=
  [Call 0 c; Event (EvCheck 0)].

(** "db" passes its first cycle; in the second one the handler is still
    running when the deadline passes. *)
Definition second_call_hangs : list (action (handler := handler) (aspect := aspect)) :=
  [Call 0 db; Event (EvCheck 0); Event (EvHandler 0 0 (Returns None));
   Event (EvAfter 0); Event (EvCheck 0); Event (EvDeadline 0)].

(** The handler of "db" panics in its first cycle. *)
Definition first_call_panics : list (action (handler := handler) (aspect := aspect)) :=
  [Call 0 db; Event (EvCheck 0);
   Event (EvHandler 0 0 (Panics "invalid memory address or nil pointer dereference"))].

End Sample.

(** ** The rest of the package: the status page and the listener *)

Section Serving.

Context {handler aspect : Type}.

Implicit Types (d : Doctor handler aspect) (w : World handler aspect).

(** [http.StatusOK] and [http.StatusServiceUnavailable]. *)
Definition StatusOK : Z := 200.
Definition StatusServiceUnavailable : Z := 503.

(** The anonymous struct [Doctor.Handler] fills in; [Errors] is [None] for
    a nil map. *)
Record statusPage : Type := mkPage {
  Status : string;
  Errors : option (gmap string string)
}.

(** What the [http.ResponseWriter] has been given when the method
    returns: the "Content-Type" header, the status code, and the struct
    handed to [json.NewEncoder(w).Encode]. The bytes [encoding/json] then
    writes for that struct are outside this model. *)
Record reply : Type := mkReply {
  contentType : string;
  statusCode : Z;
  encoded : statusPage
}.

(** The method [Handler] of [Doctor] (the name [Handler] is taken by the
    field of [Check]). The request is not looked at. *)
Definition Doctor_Handler (d : Doctor handler aspect) : reply :=
  let '(code, page) :=
    if status d =? 0
    then (StatusOK, {| Status := "up"; Errors := None |})
    else (StatusServiceUnavailable,
          {| Status := "down"; Errors := Some (failing d) |}) in
  {| contentType := "application/json; charset=utf-8";
     statusCode := code;
     encoded := page |}.

(** [Listener.Accept] of net.go. A connection is a number, [closed] the set
    of connections on which [Close] has been called, and [inner] the pair
    the wrapped [net.Listener] returns. *)
Inductive accepted : Type :=
| Accepts (c : option nat) (err : error)
| AcceptPanics.            (* [c.Close()] called on a nil [net.Conn] *)

Definition Accept (d : Doctor handler aspect) (inner : option nat * error)
  (closed : gset nat) : accepted * gset nat :=
  match inner with
  | (_, Some e) => (Accepts None (Some e), closed)
  | (Some c, None) =>
      if negb (Healthy d) then (Accepts (Some c) None, {[ c ]} ∪ closed)
      else (Accepts (Some c) None, closed)
  | (None, None) =>
      if negb (Healthy d) then (AcceptPanics, closed)
      else (Accepts None None, closed)
  end.

(** ** Invariants *)

(** The names under which a list of actions calls [Investigate]. *)
Definition call_names (l : list (action (handler := handler) (aspect := aspect)))
  : list string :=
  omap (fun a => match a with
                 | Call _ healthCheck => Some (Name healthCheck)
                 | Event _ => None
                 end) l.

(** The shared data while no name has been registered twice: object [i]
    sits at position [i] under its own name, its bit is the negation of its
    [healthy] field, a healthy object has an empty message, and no bit
    beyond the objects is set. *)
Definition consistent (d : Doctor handler aspect) : Prop :=
  U64.in_range (status d) /\
  size (items d) = length (heap d) /\
  (length (heap d) <= 63)%nat /\
  (forall (i : nat) hc, heap d !! i = Some hc ->
     pos hc = Z.of_nat i /\
     items d !! Name (check hc) = Some i /\
     Z.testbit (status d) (Z.of_nat i) = negb (healthy hc) /\
     (healthy hc = true -> msg hc = "")) /\
  (forall (n : string) (i : nat), items d !! n = Some i ->
     exists hc, heap d !! i = Some hc /\ Name (check hc) = n) /\
  (forall q : Z, Z.of_nat (length (heap d)) <= q -> Z.testbit (status d) q = false).

(** The shared data in every world, names reused or not: each name points
    at an object, and a bit is set only at the position of an object that
    is stored as unhealthy. *)
Definition attributed (d : Doctor handler aspect) : Prop :=
  U64.in_range (status d) /\
  (size (items d) <= 63)%nat /\
  (forall (i : nat) hc, heap d !! i = Some hc ->
     0 <= pos hc <= Z.of_nat (size (items d)) /\ pos hc < treshold) /\
  (forall (n : string) (i : nat), items d !! n = Some i ->
     (i < length (heap d))%nat) /\
  (forall q : Z, Z.testbit (status d) q = true ->
     exists (i : nat) hc,
       heap d !! i = Some hc /\ pos hc = q /\ healthy hc = false).

(** The goroutines in every world: one runner per object, no handler call
    listed twice, every listed call belongs to a cycle its runner has
    begun, a waiting runner waits on its latest cycle, and a runner that
    has returned had its context cancelled. *)
Definition orderly (w : World handler aspect) : Prop :=
  length (runners w) = length (heap (doctor w)) /\
  NoDup (handlers w) /\
  (forall p k : nat, (p, k) ∈ handlers w ->
     exists ru, runners w !! p = Some ru /\ (k < cycles ru)%nat) /\
  (forall (p : nat) ru (k : nat), runners w !! p = Some ru ->
     pc ru = Waiting k -> cycles ru = S k) /\
  (forall (p : nat) ru, runners w !! p = Some ru ->
     pc ru = Returned -> ctx ru ∈ cancelled w).

(** ** Locks

    The package guards its data with three kinds of [sync.RWMutex]. The
    definitions below keep, of each function, the sequence of lock calls
    it makes (deferred unlocks at the point where they run), and let a
    scheduler interleave such sequences. A mutex is held by one writer or
    by any number of readers; the preference Go gives to a waiting writer
    is left out, so a call that blocks here blocks in Go as well. *)

Inductive mutex : Type :=
| ChecksMu              (* the [RWMutex] of [healthChecks] *)
| StatusMu              (* the [RWMutex] of [healthStatus] *)
| CheckMu (p : nat).    (* the [RWMutex] of the [healthCheckStatus] at [p] *)

#[local] Instance mutex_eq_dec : EqDecision mutex.
Proof. solve_decision. Defined.

Inductive lock_op : Type :=
| Lock (m : mutex)
| Unlock (m : mutex)
| RLock (m : mutex)
| RUnlock (m : mutex).

Record rwmutex : Type := mkRW {
  writer : bool;
  readers : nat
}.

Definition lock_table : Type := mutex -> rwmutex.

Definition all_free : lock_table :=
  fun _ => {| writer := false; readers := 0 |}.

Definition set_mutex (L : lock_table) (m : mutex) (s : rwmutex) : lock_table :=
  fun m' => if decide (m' = m) then s else L m'.

(** One lock call: the new table, or [None] when the call has to wait. *)
Definition perform (L : lock_table) (o : lock_op) : option lock_table :=
  match o with
  | Lock m =>
      if writer (L m) || negb (readers (L m) =? 0)%nat then None
      else Some (set_mutex L m {| writer := true; readers := 0 |})
  | RLock m =>
      if writer (L m) then None
      else Some (set_mutex L m {| writer := false; readers := S (readers (L m)) |})
  | Unlock m =>
      Some (set_mutex L m {| writer := false; readers := readers (L m) |})
  | RUnlock m =>
      Some (set_mutex L m {| writer := writer (L m); readers := pred (readers (L m)) |})
  end.

(** The goroutine of a cycle once the handler has returned: [hc.Lock()],
    then [status.update] with its own [Lock]/[Unlock], then the deferred
    [hc.Unlock()]. *)
Definition recording_locks (p : nat) : list lock_op :=
  [Lock (CheckMu p); Lock StatusMu; Unlock StatusMu; Unlock (CheckMu p)].

(** [failing]: [checks.RLock()], [hc.Lock()] for every entry in the order
    the [range] visits them, and on return the deferred unlocks, last
    deferred first. *)
Definition failing_locks (order : list nat) : list lock_op :=
  [RLock ChecksMu] ++ (Lock ∘ CheckMu <$> order) ++
  (Unlock ∘ CheckMu <$> reverse order) ++ [RUnlock ChecksMu].

(** [Doctor.Handler]: [status.RLock()], [failing] when the status is not
    zero, then the deferred [status.RUnlock()]. [d] is the doctor as the
    method reads it under that read lock, [order] the order in which the
    [range] of [failing] visits the pointers of the registry. *)
Definition Handler_locks (d : Doctor handler aspect) (order : list nat)
  : list lock_op :=
  [RLock StatusMu] ++
  (if status d =? 0 then [] else failing_locks order) ++
  [RUnlock StatusMu].

(** [Doctor.Healthy]. *)
Definition Healthy_locks : list lock_op := [RLock StatusMu; RUnlock StatusMu].

(** [Doctor.Investigate]: [checks.Lock()], [status.update] when the check
    is accepted, then the deferred [checks.Unlock()]. [d] is the doctor as
    the method reads it under the registry lock. *)
Definition Investigate_locks (d : Doctor handler aspect) : list lock_op :=
  [Lock ChecksMu] ++
  (if Z.of_nat (size (items d)) <? treshold
   then [Lock StatusMu; Unlock StatusMu] else []) ++
  [Unlock ChecksMu].

(** Goroutines as the lock calls they still have to make, and the table
    of the mutexes. *)
Record config : Type := mkConfig {
  held : lock_table;
  threads : list (list lock_op)
}.

(** Goroutine [t] makes its next lock call. *)
Definition advance (cfg : config) (t : nat) : option config :=
  match threads cfg !! t with
  | Some (o :: rest) =>
      match perform (held cfg) o with
      | Some L => Some {| held := L; threads := <[t := rest]> (threads cfg) |}
      | None => None
      end
  | _ => None
  end.

Fixpoint schedule (ts : list nat) (cfg : config) : option config :=
  match ts with
  | [] => Some cfg
  | t :: ts' =>
      match advance cfg t with
      | Some cfg' => schedule ts' cfg'
      | None => None
      end
  end.

(** Goroutine [t] has a lock call to make and that call has to wait. *)
Definition waits (cfg : config) (t : nat) : Prop :=
  exists o rest, threads cfg !! t = Some (o :: rest) /\ perform (held cfg) o = None.

(** No goroutine can make a lock call any more, and the listed ones are
    waiting. *)
Definition deadlocked (cfg : config) (ts : list nat) : Prop :=
  (forall t : nat, advance cfg t = None) /\
  (forall t : nat, t ∈ ts -> waits cfg t).

End Serving.

(** ** More concrete runs *)

Module Scenarios.

Import Sample.

(** "db" and "cache" are registered; "db" passes its first cycle, "cache"
    fails its first cycle with the text "miss". *)
Definition db_up_cache_down : list (action (handler := handler) (aspect := aspect)) :=
  [Call 0 db; Call 1 cache;
   Event (EvCheck 0); Event (EvHandler 0 0 (Returns None));
   Event (EvCheck 1); Event (EvHandler 1 0 (Returns (Some "miss")))].

(** "db" is registered twice, then "cache". *)
Definition db_twice_then_cache : list (action (handler := handler) (aspect := aspect)) :=
  [Call 0 db; Call 1 db; Call 2 cache].

(** "db" is in its first cycle when its context is cancelled; the runner
    leaves [check()] and then the loop, the handler call is still running. *)
Definition cancelled_in_first_cycle : list (action (handler := handler) (aspect := aspect)) :=
  [Call 0 db; Event (EvCheck 0); Event (EvCancel 0);
   Event (EvDone 0); Event (EvDone 0)].



Definition after (l : list (action (handler := handler) (aspect := aspect)))
  : World handler aspect :=
  world_of (acts call l world0).

End Scenarios.

(** ** Bits of a 64-bit word *)

Module U64Facts.

Import U64.

Lemma modulus_pos : 0 < modulus.
Proof. reflexivity. Qed.

Lemma shl1_low (p : Z) : 0 <= p < width -> shl1 p = 2 ^ p.
Proof.
  intros Hp. unfold shl1, wrap. rewrite Z.shiftl_1_l.
  apply Z.mod_small. split; [apply Z.pow_nonneg; lia|].
  unfold modulus. apply Z.pow_lt_mono_r; unfold width in *; lia.
Qed.

Lemma shl1_high (p : Z) : width <= p -> shl1 p = 0.
Proof.
  intros Hp. unfold shl1, wrap, modulus. rewrite Z.shiftl_1_l.
  replace p with ((p - width) + width) by lia.
  rewrite Z.pow_add_r by (unfold width in *; lia).
  apply Z.mod_mul. unfold width. lia.
Qed.

Lemma shl1_testbit (p q : Z) :
  0 <= p < width -> Z.testbit (shl1 p) q = (p =? q).
Proof.
  intros Hp. rewrite shl1_low by assumption. apply Z.pow2_bits_eqb. lia.
Qed.

Lemma shl1_in_range (p : Z) : in_range (shl1 p).
Proof. unfold shl1, wrap. apply Z.mod_pos_bound, modulus_pos. Qed.

Lemma lnot_testbit (x q : Z) :
  0 <= q < width -> Z.testbit (lnot x) q = negb (Z.testbit x q).
Proof.
  intros Hq. unfold lnot. rewrite Z.lxor_spec, Z.ones_spec_low by assumption.
  apply xorb_true_r.
Qed.

Lemma lnot_testbit_high (x q : Z) :
  width <= q -> Z.testbit (lnot x) q = Z.testbit x q.
Proof.
  intros Hq. unfold lnot. rewrite Z.lxor_spec, Z.ones_spec_high.
  - apply xorb_false_r.
  - unfold width in *. lia.
Qed.

Lemma in_range_testbit_high (x q : Z) :
  in_range x -> width <= q -> Z.testbit x q = false.
Proof.
  intros Hx Hq. rewrite <- (Z.mod_small x modulus) by exact Hx.
  unfold modulus. apply Z.mod_pow2_bits_high. unfold width in *. lia.
Qed.

Lemma in_range_of_bits (x : Z) :
  0 <= x -> (forall q, width <= q -> Z.testbit x q = false) -> in_range x.
Proof.
  intros Hx Hhigh. split; [exact Hx|].
  destruct (Z.eq_dec x 0) as [->|Hne]; [reflexivity|].
  assert (Hlog : Z.log2 x < width).
  { destruct (Z_lt_le_dec (Z.log2 x) width) as [Hlt|Hge]; [exact Hlt|].
    specialize (Hhigh (Z.log2 x) Hge).
    rewrite Z.bit_log2 in Hhigh by lia. discriminate. }
  unfold modulus. apply Z.log2_lt_pow2; lia.
Qed.

End U64Facts.

(** ** Properties *)

Section Properties.

Context {handler aspect : Type}.
Variable call_aspect : aspect -> Check handler aspect -> error -> error.

Implicit Types (d : Doctor handler aspect) (w : World handler aspect).
Implicit Types (hc : healthCheckStatus handler aspect).
Implicit Types (s : Z) (v : bool).

(** *** The bitmask *)

Lemma update_testbit_same s (p : Z) v :
  0 <= p < U64.width -> Z.testbit (update s p v) p = negb v.
Proof.
  intros Hp. unfold update. destruct v; simpl.
  - rewrite Z.land_spec, U64Facts.lnot_testbit by assumption.
    rewrite U64Facts.shl1_testbit, Z.eqb_refl by assumption.
    apply andb_false_r.
  - rewrite Z.lor_spec, U64Facts.shl1_testbit, Z.eqb_refl by assumption.
    apply orb_true_r.
Qed.

Lemma update_testbit_low s (p q : Z) v :
  0 <= p < U64.width -> 0 <= q < U64.width -> q <> p ->
  Z.testbit (update s p v) q = Z.testbit s q.
Proof.
  intros Hp Hq Hne. unfold update.
  assert (Hbit : Z.testbit (U64.shl1 p) q = false).
  { rewrite U64Facts.shl1_testbit by assumption. apply Z.eqb_neq. lia. }
  destruct v; simpl.
  - rewrite Z.land_spec, U64Facts.lnot_testbit, Hbit by assumption.
    apply andb_true_r.
  - rewrite Z.lor_spec, Hbit. apply orb_false_r.
Qed.

Lemma update_in_range s (p : Z) v : U64.in_range s -> U64.in_range (update s p v).
Proof.
  intros Hs. pose proof (U64Facts.shl1_in_range p) as Hb.
  apply U64Facts.in_range_of_bits.
  - unfold update. destruct v; simpl.
    + apply Z.land_nonneg. left. apply Hs.
    + apply Z.lor_nonneg. split; [apply Hs | apply Hb].
  - intros q Hq. unfold update. destruct v; simpl.
    + rewrite Z.land_spec, (U64Facts.in_range_testbit_high s) by assumption.
      reflexivity.
    + rewrite Z.lor_spec, !U64Facts.in_range_testbit_high by assumption.
      reflexivity.
Qed.

Lemma update_testbit_other s (p q : Z) v :
  U64.in_range s -> 0 <= p < U64.width -> q <> p ->
  Z.testbit (update s p v) q = Z.testbit s q.
Proof.
  intros Hs Hp Hne.
  destruct (Z_lt_le_dec q 0) as [Hneg|Hpos].
  { rewrite !Z.testbit_neg_r by assumption. reflexivity. }
  destruct (Z_lt_le_dec q U64.width) as [Hlow|Hhigh].
  { apply update_testbit_low; [assumption | lia | assumption]. }
  rewrite !U64Facts.in_range_testbit_high;
    [reflexivity | assumption | assumption | | assumption].
  apply update_in_range, Hs.
Qed.

(** A position outside the word addresses no bit: the call is then a no-op
    on a well-formed status. [Investigate] never hands out such a position. *)
Lemma update_outside_word s (p : Z) v :
  U64.in_range s -> U64.width <= p -> update s p v = s.
Proof.
  intros Hs Hp. unfold update. rewrite U64Facts.shl1_high by assumption.
  destruct v; simpl.
  - unfold U64.lnot. rewrite Z.lxor_0_l, Z.land_ones by (unfold U64.width; lia).
    apply Z.mod_small, Hs.
  - apply Z.lor_0_r.
Qed.


(** *** Registration *)

Lemma Investigate_accepts w (c : nat) (healthCheck : Check handler aspect) :
  Z.of_nat (size (items (doctor w))) < treshold ->
  Investigate c healthCheck w =
    ({| doctor :=
          {| heap := heap (doctor w) ++
                     [{| check := healthCheck; healthy := false; msg := "[n/a]";
                         pos := Z.of_nat (size (items (doctor w))) |}];
             items := <[Name healthCheck := length (heap (doctor w))]>
                        (items (doctor w));
             status := update (status (doctor w))
                              (Z.of_nat (size (items (doctor w)))) false |};
        runners := runners w ++ [{| ctx := c; cycles := 0; pc := AtCheck |}];
        handlers := handlers w;
        cancelled := cancelled w |}, None).
Proof.
  intros Hlt. unfold Investigate.
  destruct (Z.ltb_spec (Z.of_nat (size (items (doctor w)))) treshold); [reflexivity | lia].
Qed.

Lemma Investigate_refuses w (c : nat) (healthCheck : Check handler aspect) :
  treshold <= Z.of_nat (size (items (doctor w))) ->
  Investigate c healthCheck w = (w, Some treshold_exceeded).
Proof.
  intros Hge. unfold Investigate.
  destruct (Z.ltb_spec (Z.of_nat (size (items (doctor w)))) treshold); [lia | reflexivity].
Qed.


(** Every event but the end of a handler call leaves the shared data alone. *)
Lemma step_silent w w' (e : event) :
  (forall p k res, e <> EvHandler p k res) ->
  step call_aspect w e = Next w' -> doctor w' = doctor w.
Proof.
  intros Hnot Hstep. destruct e as [p|p|p k res|p|c|p]; simpl in Hstep.
  - destruct (runners w !! p) as [ru|]; [|discriminate].
    destruct (pc ru); inversion Hstep; reflexivity.
  - destruct (runners w !! p) as [ru|]; [|discriminate].
    destruct (pc ru); inversion Hstep; reflexivity.
  - exfalso. exact (Hnot p k res eq_refl).
  - destruct (runners w !! p) as [ru|]; [|discriminate].
    destruct (pc ru); inversion Hstep; reflexivity.
  - inversion Hstep; reflexivity.
  - destruct (runners w !! p) as [ru|]; [|discriminate].
    destruct (bool_decide _); [|discriminate].
    destruct (pc ru); inversion Hstep; reflexivity.
Qed.

(** C4: [Healthy] answers true exactly when the bitmask is zero. *)
Theorem Healthy_iff_status_zero d : Healthy d = true <-> status d = 0.
Proof. unfold Healthy. apply Z.eqb_eq. Qed.

(** *** Recording *)

Lemma record_items d (p : nat) (raw : error) :
  items (record call_aspect d p raw) = items d.
Proof.
  unfold record. destruct (heap d !! p) as [hc|]; [|reflexivity].
  destruct (transformed call_aspect (check hc) raw); reflexivity.
Qed.

Lemma record_heap_other d (p p' : nat) (raw : error) :
  p' <> p -> heap (record call_aspect d p raw) !! p' = heap d !! p'.
Proof.
  intros Hne. unfold record. destruct (heap d !! p) as [hc|]; [|reflexivity].
  destruct (transformed call_aspect (check hc) raw); simpl;
    apply list_lookup_insert_ne; congruence.
Qed.

Lemma record_heap_same d (p : nat) hc (raw : error) :
  heap d !! p = Some hc ->
  heap (record call_aspect d p raw) !! p =
    Some match transformed call_aspect (check hc) raw with
         | None => set_state hc true ""
         | Some text => set_state hc false text
         end.
Proof.
  intros Hp. unfold record. rewrite Hp.
  pose proof (lookup_lt_Some _ _ _ Hp) as Hlt.
  destruct (transformed call_aspect (check hc) raw); simpl;
    apply list_lookup_insert_eq; exact Hlt.
Qed.

Lemma record_status d (p : nat) hc (raw : error) :
  heap d !! p = Some hc ->
  status (record call_aspect d p raw) =
    update (status d) (pos hc)
           match transformed call_aspect (check hc) raw with
           | None => true
           | Some _ => false
           end.
Proof.
  intros Hp. unfold record. rewrite Hp.
  destruct (transformed call_aspect (check hc) raw); reflexivity.
Qed.

Lemma record_length d (p : nat) (raw : error) :
  length (heap (record call_aspect d p raw)) = length (heap d).
Proof.
  unfold record. destruct (heap d !! p) as [hc|]; [|reflexivity].
  destruct (transformed call_aspect (check hc) raw); simpl; apply length_insert.
Qed.

Lemma record_pos d (p p' : nat) hc (raw : error) :
  heap d !! p' = Some hc ->
  exists hc', heap (record call_aspect d p raw) !! p' = Some hc' /\
              pos hc' = pos hc /\ check hc' = check hc.
Proof.
  intros Hp'. destruct (decide (p' = p)) as [->|Hne].
  - rewrite (record_heap_same _ _ _ _ Hp').
    destruct (transformed call_aspect (check hc) raw); eexists; repeat split.
  - rewrite record_heap_other by assumption. exists hc. repeat split. exact Hp'.
Qed.

(** *** The failure snapshot *)

Lemma failing_lookup d (n : string) :
  failing d !! n = items d !! n ≫= message_of (heap d).
Proof. unfold failing. apply lookup_omap. Qed.

Lemma length_pos_nonempty (m : string) :
  (0 <? String.length m)%nat = true <-> m <> "".
Proof.
  destruct m as [|a m]; simpl; split; intros H.
  - discriminate.
  - exfalso. apply H. reflexivity.
  - discriminate.
  - reflexivity.
Qed.

Lemma message_of_Some (hs : list (healthCheckStatus handler aspect)) (p : nat) (m : string) :
  message_of hs p = Some m <->
  exists hc, hs !! p = Some hc /\ msg hc = m /\ m <> "".
Proof.
  unfold message_of. split.
  - destruct (hs !! p) as [hc|]; [|discriminate].
    destruct (0 <? String.length (msg hc))%nat eqn:Hlen; [|discriminate].
    intros [= <-]. exists hc. repeat split. apply length_pos_nonempty, Hlen.
  - intros (hc & -> & <- & Hne).
    apply length_pos_nonempty in Hne. rewrite Hne. reflexivity.
Qed.

Lemma failing_record_other d (p : nat) (raw : error) (n : string) :
  items d !! n <> Some p ->
  failing (record call_aspect d p raw) !! n = failing d !! n.
Proof.
  intros Hn. rewrite !failing_lookup, record_items.
  destruct (items d !! n) as [p'|]; [|reflexivity]. simpl.
  unfold message_of. rewrite record_heap_other by congruence. reflexivity.
Qed.

(** *** Reachable worlds are well formed *)

Lemma NewDoctor_well_formed : well_formed (NewDoctor handler aspect).
Proof.
  split.
  - simpl. unfold U64.in_range, U64.modulus, U64.width. lia.
  - intros i hc Hi. simpl in Hi. rewrite lookup_nil in Hi. discriminate.
Qed.

Lemma record_well_formed d (p : nat) (raw : error) :
  well_formed d -> well_formed (record call_aspect d p raw).
Proof.
  intros [Hst Hpos]. split.
  - unfold record. destruct (heap d !! p) as [hc|]; [|exact Hst].
    destruct (transformed call_aspect (check hc) raw); simpl;
      apply update_in_range, Hst.
  - intros i hc' Hi.
    pose proof (lookup_lt_Some _ _ _ Hi) as Hlt. rewrite record_length in Hlt.
    destruct (lookup_lt_is_Some_2 _ _ Hlt) as [hc Hold].
    destruct (record_pos d p i hc raw Hold) as (hc'' & Hnew & Hsame & _).
    rewrite Hi in Hnew. inversion Hnew. subst hc''.
    rewrite Hsame. apply (Hpos i), Hold.
Qed.

Lemma act_well_formed w w' (a : action) :
  well_formed (doctor w) ->
  act call_aspect w a = Next w' ->
  well_formed (doctor w').
Proof.
  intros Hwf. destruct a as [c healthCheck|e]; simpl.
  - intros [= <-]. unfold Investigate.
    destruct (Z.ltb_spec (Z.of_nat (size (items (doctor w)))) treshold) as [Hlt|Hge];
      simpl; [|exact Hwf].
    destruct Hwf as [Hst Hpos]. split; simpl.
    + apply update_in_range, Hst.
    + intros i hc Hi.
      destruct (decide (i < length (heap (doctor w)))%nat) as [Hin|Hout].
      * rewrite lookup_app_l in Hi by exact Hin. apply (Hpos i), Hi.
      * rewrite lookup_app_r in Hi by lia.
        destruct (i - length (heap (doctor w)))%nat; simpl in Hi;
          [|rewrite lookup_nil in Hi; discriminate].
        inversion Hi. simpl. lia.
  - intros Hstep.
    destruct e as [p|p|p k [raw|m]|p|c|p];
      try (assert (Hd : doctor w' = doctor w)
             by (eapply step_silent; [|exact Hstep]; intros; discriminate);
           rewrite Hd; exact Hwf).
    + simpl in Hstep. destruct (finish (p, k) (handlers w)); [|discriminate].
      inversion Hstep. simpl. apply record_well_formed, Hwf.
    + simpl in Hstep. destruct (finish (p, k) (handlers w)); discriminate.
Qed.

(** Whatever calls and events lead from a new doctor to [w], every stored
    position addresses a bit of the status word. *)
Lemma reachable_well_formed (l : list action) :
  forall w w',
    well_formed (doctor w) ->
    acts call_aspect l w = Next w' ->
    U64.in_range (status (doctor w')) /\
    forall (i : nat) hc,
      heap (doctor w') !! i = Some hc -> 0 <= pos hc < U64.width.
Proof.
  induction l as [|a l IH]; intros w w' Hwf Hacts.
  - inversion Hacts. subst w'. destruct Hwf as [Hst Hpos]. split; [exact Hst|].
    intros i hc Hi. specialize (Hpos i hc Hi).
    unfold treshold, U64.width in *. lia.
  - cbn [acts] in Hacts.
    destruct (act call_aspect w a) as [w1| |m] eqn:Hact; try discriminate.
    exact (IH w1 w' (act_well_formed _ _ _ Hwf Hact) Hacts).
Qed.

(** C5: on a 64-bit status and a position inside the word, [update] sets
    bit [p] for a false value and clears it for a true one, and leaves every
    other bit as it was; so recording the result of one check changes no
    other bit, no other stored state and no other entry of [failing]. *)
Theorem update_flips_only_its_bit s (p : Z) v :
  U64.in_range s -> 0 <= p < U64.width ->
  Z.testbit (update s p v) p = negb v /\
  (forall q : Z, q <> p -> Z.testbit (update s p v) q = Z.testbit s q) /\
  U64.in_range (update s p v) /\
  forall d (ptr : nat) hc (raw : error),
    status d = s -> heap d !! ptr = Some hc -> pos hc = p ->
    let d' := record call_aspect d ptr raw in
    (forall q : Z, q <> p -> Z.testbit (status d') q = Z.testbit s q) /\
    (forall other : nat, other <> ptr -> heap d' !! other = heap d !! other) /\
    (forall n : string, items d !! n <> Some ptr -> failing d' !! n = failing d !! n).
Proof.
  intros Hs Hp. split; [|split; [|split]].
  - apply update_testbit_same, Hp.
  - intros q Hq. apply update_testbit_other; assumption.
  - apply update_in_range, Hs.
  - intros d ptr hc raw Hst Hptr Hpos d'. subst s p. repeat split.
    + intros q Hq. unfold d'. rewrite (record_status _ _ _ _ Hptr).
      apply update_testbit_other; assumption.
    + intros other Hne. apply record_heap_other, Hne.
    + intros n Hn. apply failing_record_other, Hn.
Qed.

Lemma finish_Some_step w (p k : nat) (raw : error) (hs : list (nat * nat)) :
  finish (p, k) (handlers w) = Some hs ->
  step call_aspect w (EvHandler p k (Returns raw)) =
    Next {| doctor := record call_aspect (doctor w) p raw;
            runners := cancel (runners w) p k;
            handlers := hs;
            cancelled := cancelled w |}.
Proof. intros Hf. simpl. rewrite Hf. reflexivity. Qed.

(** C6: when the handler call of a cycle ends, the result after the aspect
    (the raw result when the check has none) is what gets recorded: nil
    clears the bit and stores [healthy = true] with an empty message, an
    error sets the bit and stores [healthy = false] with the error text. *)
Theorem cycle_records_transformed_result
  w (p k : nat) hc (raw : error) (hs : list (nat * nat)) :
  finish (p, k) (handlers w) = Some hs ->
  heap (doctor w) !! p = Some hc ->
  0 <= pos hc < U64.width ->
  exists w',
    step call_aspect w (EvHandler p k (Returns raw)) = Next w' /\
    items (doctor w') = items (doctor w) /\
    let result := match Aspect (check hc) with
                  | Some a => call_aspect a (check hc) raw
                  | None => raw
                  end in
    match result with
    | None =>
        Z.testbit (status (doctor w')) (pos hc) = false /\
        heap (doctor w') !! p =
          Some {| check := check hc; healthy := true; msg := ""; pos := pos hc |}
    | Some text =>
        Z.testbit (status (doctor w')) (pos hc) = true /\
        heap (doctor w') !! p =
          Some {| check := check hc; healthy := false; msg := text; pos := pos hc |}
    end.
Proof.
  intros Hf Hp Hpos. eexists. split; [apply (finish_Some_step _ _ _ _ _ Hf)|].
  simpl. split; [apply record_items|].
  rewrite (record_status _ _ _ _ Hp), (record_heap_same _ _ _ _ Hp).
  fold (transformed call_aspect (check hc) raw).
  destruct (transformed call_aspect (check hc) raw) as [text|]; split;
    try reflexivity.
  - apply (update_testbit_same _ _ false), Hpos.
  - apply (update_testbit_same _ _ true), Hpos.
Qed.

(** *** One check that keeps failing *)

Lemma finish_head (x : nat * nat) (hs : list (nat * nat)) :
  finish x (x :: hs) = Some hs.
Proof. simpl. rewrite bool_decide_eq_true_2; reflexivity. Qed.

Lemma run_cons_next w w' (e : event) (es : list event) :
  step call_aspect w e = Next w' ->
  run call_aspect (e :: es) w = run call_aspect es w'.
Proof. intros Hstep. cbn [run]. rewrite Hstep. reflexivity. Qed.

Lemma record_single
  (healthCheck : Check handler aspect) (h : bool) (m text : string)
  (names : gmap string nat) :
  Aspect healthCheck = None ->
  record call_aspect
    {| heap := [{| check := healthCheck; healthy := h; msg := m; pos := 0 |}];
       items := names; status := 1 |} 0 (Some text)
  = {| heap := [{| check := healthCheck; healthy := false; msg := text; pos := 0 |}];
       items := names; status := 1 |}.
Proof.
  intros Hasp. unfold record, transformed. cbn. rewrite Hasp. reflexivity.
Qed.

Lemma failing_cycle_once
  (healthCheck : Check handler aspect) (c j : nat) (h : bool) (m text : string)
  (rest : list event) :
  Aspect healthCheck = None ->
  run call_aspect
      (EvCheck 0 :: EvHandler 0 j (Returns (Some text)) :: EvAfter 0 :: rest)
      {| doctor := {| heap := [{| check := healthCheck; healthy := h;
                                  msg := m; pos := 0 |}];
                      items := {[ Name healthCheck := 0%nat ]};
                      status := 1 |};
         runners := [{| ctx := c; cycles := j; pc := AtCheck |}];
         handlers := []; cancelled := [] |}
  = run call_aspect rest
      {| doctor := {| heap := [{| check := healthCheck; healthy := false;
                                  msg := text; pos := 0 |}];
                      items := {[ Name healthCheck := 0%nat ]};
                      status := 1 |};
         runners := [{| ctx := c; cycles := S j; pc := AtCheck |}];
         handlers := []; cancelled := [] |}.
Proof.
  intros Hasp.
  erewrite run_cons_next by reflexivity.
  erewrite run_cons_next
    by (unfold step; cbn [handlers doctor runners cancelled];
        rewrite finish_head, (record_single _ _ _ _ _ Hasp);
        cbn; rewrite Nat.eqb_refl; reflexivity).
  erewrite run_cons_next by reflexivity.
  reflexivity.
Qed.

Lemma failing_cycles_steady
  (healthCheck : Check handler aspect) (c j n : nat) (text : string) :
  Aspect healthCheck = None ->
  run call_aspect (cycles_of 0 j n (Some text))
      {| doctor := {| heap := [{| check := healthCheck; healthy := false;
                                  msg := text; pos := 0 |}];
                      items := {[ Name healthCheck := 0%nat ]};
                      status := 1 |};
         runners := [{| ctx := c; cycles := j; pc := AtCheck |}];
         handlers := []; cancelled := [] |}
  = Next {| doctor := {| heap := [{| check := healthCheck; healthy := false;
                                     msg := text; pos := 0 |}];
                         items := {[ Name healthCheck := 0%nat ]};
                         status := 1 |};
            runners := [{| ctx := c; cycles := (j + n)%nat; pc := AtCheck |}];
            handlers := []; cancelled := [] |}.
Proof.
  intros Hasp. revert j. induction n as [|n IH]; intros j.
  - cbn [cycles_of run]. rewrite Nat.add_0_r. reflexivity.
  - cbn [cycles_of]. rewrite failing_cycle_once by exact Hasp.
    rewrite IH. replace (S j + n)%nat with (j + S n)%nat by lia. reflexivity.
Qed.

Lemma failing_cycles_run
  (healthCheck : Check handler aspect) (c n : nat) (h : bool) (m text : string) :
  Aspect healthCheck = None ->
  run call_aspect (cycles_of 0 0 (S n) (Some text))
      {| doctor := {| heap := [{| check := healthCheck; healthy := h;
                                  msg := m; pos := 0 |}];
                      items := {[ Name healthCheck := 0%nat ]};
                      status := 1 |};
         runners := [{| ctx := c; cycles := 0; pc := AtCheck |}];
         handlers := []; cancelled := [] |}
  = Next {| doctor := {| heap := [{| check := healthCheck; healthy := false;
                                     msg := text; pos := 0 |}];
                         items := {[ Name healthCheck := 0%nat ]};
                         status := 1 |};
            runners := [{| ctx := c; cycles := S n; pc := AtCheck |}];
            handlers := []; cancelled := [] |}.
Proof.
  intros Hasp. cbn [cycles_of].
  rewrite failing_cycle_once by exact Hasp.
  apply failing_cycles_steady, Hasp.
Qed.

Lemma failing_singleton d (n m : string) hc :
  items d = {[ n := 0%nat ]} -> heap d = [hc] -> msg hc = m -> m <> "" ->
  failing d = {[ n := m ]}.
Proof.
  intros Hitems Hheap Hmsg Hne. apply map_eq. intros n'.
  rewrite failing_lookup, Hitems, Hheap.
  destruct (decide (n' = n)) as [->|Hn].
  - rewrite !lookup_singleton_eq. simpl.
    apply message_of_Some. exists hc. auto.
  - rewrite !lookup_singleton_ne by congruence. reflexivity.
Qed.

(** C7: [failing] has an entry (name, message) exactly for the names of
    the registry whose object holds a non-empty message; being a value
    computed from the registry it shares nothing with it. With a single
    check, no aspect, and a handler that fails with the same non-empty text
    in every cycle, the map is the singleton of the name and that text
    after any positive number of cycles, and [Healthy] answers false. *)
Theorem failing_lists_nonempty_messages :
  (forall d (n m : string),
      failing d !! n = Some m <->
      exists (p : nat) hc,
        items d !! n = Some p /\ heap d !! p = Some hc /\ msg hc = m /\ m <> "") /\
  (forall (healthCheck : Check handler aspect) (c cycles : nat) (text : string),
      Aspect healthCheck = None -> text <> "" -> (0 < cycles)%nat ->
      exists w,
        run call_aspect (cycles_of 0 0 cycles (Some text))
            (fst (Investigate c healthCheck (NewWorld handler aspect))) = Next w /\
        failing (doctor w) = {[ Name healthCheck := text ]} /\
        Healthy (doctor w) = false).
Proof.
  split.
  - intros d n m. rewrite failing_lookup. split.
    + destruct (items d !! n) as [p|] eqn:Hn; [|discriminate]. simpl.
      intros Hm. apply message_of_Some in Hm as (hc & Hp & Hmsg & Hne).
      exists p, hc. auto.
    + intros (p & hc & -> & Hp & Hmsg & Hne). simpl.
      apply message_of_Some. exists hc. auto.
  - intros healthCheck c cycles text Hasp Htext Hcycles.
    destruct cycles as [|n]; [lia|].
    eexists. split.
    + rewrite Investigate_accepts by (simpl; unfold treshold; rewrite map_size_empty; lia).
      cbn [fst NewWorld NewDoctor doctor heap items status runners handlers cancelled].
      rewrite map_size_empty, insert_empty. simpl app. simpl length.
      change (update 0 (Z.of_nat 0) false) with 1.
      change (Z.of_nat 0) with 0.
      apply failing_cycles_run, Hasp.
    + split.
      * eapply failing_singleton; try reflexivity. exact Htext.
      * reflexivity.
Qed.

(** *** Positions *)








(** *** A name registered twice *)

(** C10: [Investigate] under a name already in the registry replaces the
    entry and leaves the size as it was, so the next call under a new name
    computes the same position: the two objects hold one position, both
    have a runner at the head of its loop, a result recorded for either
    writes that one bit, and a success of the second clears the bit while
    the first still stores its failure. *)
Theorem duplicate_name_shares_bit
  w (c1 c2 : nat) (dup next : Check handler aspect) :
  is_Some (items (doctor w) !! Name dup) ->
  items (doctor w) !! Name next = None ->
  Z.of_nat (size (items (doctor w))) < treshold ->
  let n := Z.of_nat (size (items (doctor w))) in
  let p1 := length (heap (doctor w)) in
  let p2 := S p1 in
  exists w1 w2,
    Investigate c1 dup w = (w1, None) /\
    Investigate c2 next w1 = (w2, None) /\
    items (doctor w1) = <[Name dup := p1]> (items (doctor w)) /\
    size (items (doctor w1)) = size (items (doctor w)) /\
    heap (doctor w2) =
      heap (doctor w) ++
      [{| check := dup; healthy := false; msg := "[n/a]"; pos := n |};
       {| check := next; healthy := false; msg := "[n/a]"; pos := n |}] /\
    runners w2 =
      runners w ++ [{| ctx := c1; cycles := 0; pc := AtCheck |};
                    {| ctx := c2; cycles := 0; pc := AtCheck |}] /\
    (forall raw : error,
        exists v1 v2 : bool,
          status (record call_aspect (doctor w2) p1 raw) =
            update (status (doctor w2)) n v1 /\
          status (record call_aspect (doctor w2) p2 raw) =
            update (status (doctor w2)) n v2) /\
    (forall (raw1 raw2 : error) (text : string),
        transformed call_aspect dup raw1 = Some text ->
        transformed call_aspect next raw2 = None ->
        let d := record call_aspect (record call_aspect (doctor w2) p1 raw1) p2 raw2 in
        Z.testbit (status d) n = false /\
        heap d !! p1 =
          Some {| check := dup; healthy := false; msg := text; pos := n |}).
Proof.
  intros Hdup Hnext Hroom n p1 p2.
  pose proof (Investigate_accepts w c1 dup Hroom) as Hinv1.
  set (w1 := fst (Investigate c1 dup w)).
  assert (Hw1 : Investigate c1 dup w = (w1, None)).
  { unfold w1. rewrite Hinv1. reflexivity. }
  assert (Hitems1 : items (doctor w1) = <[Name dup := p1]> (items (doctor w))).
  { unfold w1. rewrite Hinv1. reflexivity. }
  assert (Hheap1 : heap (doctor w1) =
                   heap (doctor w) ++
                   [{| check := dup; healthy := false; msg := "[n/a]"; pos := n |}]).
  { unfold w1. rewrite Hinv1. reflexivity. }
  assert (Hrun1 : runners w1 =
                  runners w ++ [{| ctx := c1; cycles := 0; pc := AtCheck |}]).
  { unfold w1. rewrite Hinv1. reflexivity. }
  assert (Hsize1 : size (items (doctor w1)) = size (items (doctor w))).
  { rewrite Hitems1. apply map_size_insert_Some, Hdup. }
  assert (Hroom1 : Z.of_nat (size (items (doctor w1))) < treshold).
  { rewrite Hsize1. exact Hroom. }
  pose proof (Investigate_accepts w1 c2 next Hroom1) as Hinv2.
  rewrite Hsize1 in Hinv2. fold n in Hinv2.
  set (w2 := fst (Investigate c2 next w1)).
  assert (Hheap2 : heap (doctor w2) =
                   heap (doctor w) ++
                   [{| check := dup; healthy := false; msg := "[n/a]"; pos := n |};
                    {| check := next; healthy := false; msg := "[n/a]"; pos := n |}]).
  { unfold w2. rewrite Hinv2. simpl. rewrite Hheap1, <- app_assoc. reflexivity. }
  assert (Hp1 : heap (doctor w2) !! p1 =
                Some {| check := dup; healthy := false; msg := "[n/a]"; pos := n |}).
  { rewrite Hheap2, lookup_app_r by (unfold p1; lia).
    unfold p1. rewrite Nat.sub_diag. reflexivity. }
  assert (Hp2 : heap (doctor w2) !! p2 =
                Some {| check := next; healthy := false; msg := "[n/a]"; pos := n |}).
  { rewrite Hheap2, lookup_app_r by (unfold p2, p1; lia).
    unfold p2, p1. replace (S _ - _)%nat with 1%nat by lia. reflexivity. }
  assert (Hn : 0 <= n < U64.width).
  { unfold n, treshold, U64.width in *. lia. }
  exists w1, w2. split_and!.
  - exact Hw1.
  - unfold w2. rewrite Hinv2. reflexivity.
  - exact Hitems1.
  - exact Hsize1.
  - exact Hheap2.
  - unfold w2. rewrite Hinv2. simpl. rewrite Hrun1, <- app_assoc. reflexivity.
  - intros raw. eexists _, _. split.
    + rewrite (record_status _ _ _ _ Hp1). reflexivity.
    + rewrite (record_status _ _ _ _ Hp2). reflexivity.
  - intros raw1 raw2 text Ht1 Ht2 d.
    assert (Hp2' : heap (record call_aspect (doctor w2) p1 raw1) !! p2 =
                   Some {| check := next; healthy := false; msg := "[n/a]"; pos := n |}).
    { rewrite record_heap_other by (unfold p2; lia). exact Hp2. }
    split.
    + unfold d. rewrite (record_status _ _ _ _ Hp2'). simpl. rewrite Ht2.
      apply (update_testbit_same _ _ true), Hn.
    + unfold d. rewrite record_heap_other by (unfold p2; lia).
      rewrite (record_heap_same _ _ _ _ Hp1). simpl. rewrite Ht1. reflexivity.
Qed.

(** *** Deadlines *)

(** A run in which no handler call ends leaves the shared data alone. *)
Lemma run_silent (es : list event) :
  forall w w',
    (forall e, e ∈ es -> forall q j res, e <> EvHandler q j res) ->
    run call_aspect es w = Next w' -> doctor w' = doctor w.
Proof.
  induction es as [|e es IH]; intros w w' Hnot Hrun.
  - inversion Hrun. reflexivity.
  - cbn [run] in Hrun.
    destruct (step call_aspect w e) as [w1| |m] eqn:Hstep; try discriminate.
    rewrite (IH w1 w'); [| |exact Hrun].
    + apply (step_silent w w1 e); [|exact Hstep]. apply Hnot. left.
    + intros e' He'. apply Hnot. right. exact He'.
Qed.

(** C2 (as the code has it): when the deadline of a cycle passes, the
    runner stops waiting, and can go on to the interval wait and to the next
    cycle; no other runner is touched. The expiry writes nothing: registry,
    stored states and bitmask are what they were, and they stay so through
    every run of further events in which no handler call ends. The handler
    calls that are running at the expiry, the one that timed out included,
    stay among the running ones, and each of them records its result if it
    returns then. *)
Theorem deadline_releases_runner_only w (p k : nat) (ru : runner) :
  runners w !! p = Some ru ->
  pc ru = Waiting k ->
  exists w',
    step call_aspect w (EvDeadline p) = Next w' /\
    runners w' !! p = Some (set_pc ru Sleeping) /\
    (forall q : nat, q <> p -> runners w' !! q = runners w !! q) /\
    doctor w' = doctor w /\
    handlers w' = handlers w /\
    cancelled w' = cancelled w /\
    (exists w'',
      run call_aspect [EvAfter p; EvCheck p] w' = Next w'' /\
      runners w'' !! p =
        Some {| ctx := ctx ru; cycles := S (cycles ru); pc := Waiting (cycles ru) |} /\
      doctor w'' = doctor w /\
      handlers w'' = (p, cycles ru) :: handlers w) /\
    (forall (es : list event) w'',
        (forall e, e ∈ es -> forall q j res, e <> EvHandler q j res) ->
        run call_aspect es w' = Next w'' ->
        doctor w'' = doctor w) /\
    (forall (q j : nat) (raw : error) (hs : list (nat * nat)),
        finish (q, j) (handlers w) = Some hs ->
        exists w'',
          step call_aspect w' (EvHandler q j (Returns raw)) = Next w'' /\
          doctor w'' = record call_aspect (doctor w) q raw /\
          handlers w'' = hs).
Proof.
  intros Hru Hpc.
  pose proof (lookup_lt_Some _ _ _ Hru) as Hlt.
  eexists. split.
  { simpl. rewrite Hru, Hpc. reflexivity. }
  simpl. split_and!; try reflexivity.
  - apply list_lookup_insert_eq, Hlt.
  - intros q Hq. apply list_lookup_insert_ne. congruence.
  - eexists. split.
    + cbn [run step with_runners runners].
      rewrite list_lookup_insert_eq by exact Hlt. cbn [set_pc pc].
      cbn [run step with_runners runners].
      rewrite list_lookup_insert_eq by (rewrite length_insert; exact Hlt).
      cbn [pc]. reflexivity.
    + simpl. split_and!; try reflexivity.
      rewrite list_lookup_insert_eq; [reflexivity|].
      rewrite !length_insert. exact Hlt.
  - intros es w'' Hnot Hrun. exact (run_silent es _ w'' Hnot Hrun).
  - intros q j raw hs Hf. eexists. split.
    + unfold step. cbn [with_runners handlers]. rewrite Hf. reflexivity.
    + split; reflexivity.
Qed.

(** *** Panics *)

(** C9 (as the code has it): nothing recovers a panic of a handler. When
    the handler call of a running cycle panics, the process dies with that
    panic: no result is recorded and no later event of any runner takes
    place. *)
Theorem handler_panic_ends_process
  w (p k : nat) (reason : string) (hs : list (nat * nat)) (later : list event) :
  finish (p, k) (handlers w) = Some hs ->
  step call_aspect w (EvHandler p k (Panics reason)) = Crash reason /\
  run call_aspect (EvHandler p k (Panics reason) :: later) w = Crash reason /\
  forall w', run call_aspect (EvHandler p k (Panics reason) :: later) w <> Next w'.
Proof.
  intros Hf.
  assert (Hstep : step call_aspect w (EvHandler p k (Panics reason)) = Crash reason).
  { simpl. rewrite Hf. reflexivity. }
  split; [exact Hstep|]. cbn [run]. rewrite Hstep. split; [reflexivity|].
  intros w'. discriminate.
Qed.

End Properties.

(** ** Further properties of the package *)

Section Composition.

Context {handler aspect : Type}.
Variable call_aspect : aspect -> Check handler aspect -> error -> error.

Implicit Types (d : Doctor handler aspect) (w : World handler aspect).
Implicit Types (hc : healthCheckStatus handler aspect).
Implicit Types (s : Z) (v : bool).

(** *** Writes to the bitmask compose *)

Lemma update_no_bit s (p : Z) v :
  U64.in_range s -> ~ (0 <= p < U64.width) -> update s p v = s.
Proof.
  intros Hs Hp. destruct (Z_lt_le_dec p 0) as [Hneg|Hpos].
  - unfold update, U64.shl1, U64.wrap. rewrite Z.shiftl_1_l.
    rewrite Z.pow_neg_r by exact Hneg. rewrite Z.mod_0_l by (unfold U64.modulus, U64.width; lia).
    destruct v; simpl.
    + unfold U64.lnot. rewrite Z.lxor_0_l, Z.land_ones by (unfold U64.width; lia).
      apply Z.mod_small, Hs.
    + apply Z.lor_0_r.
  - apply update_outside_word; [exact Hs | lia].
Qed.

Lemma update_bits s (p q : Z) v :
  U64.in_range s -> 0 <= p < U64.width ->
  Z.testbit (update s p v) q = if q =? p then negb v else Z.testbit s q.
Proof.
  intros Hs Hp. destruct (Z.eqb_spec q p) as [->|Hne].
  - apply update_testbit_same, Hp.
  - apply update_testbit_other; assumption.
Qed.

(** X1: Two writes to one position: the later one decides, whatever the
    earlier one wrote; in particular writing a value twice is writing it
    once. *)
Theorem update_last_write_wins s (p : Z) (v1 v2 : bool) :
  U64.in_range s ->
  update (update s p v1) p v2 = update s p v2.
Proof.
  intros Hs.
  destruct (decide (0 <= p < U64.width)) as [Hp|Hp].
  - apply Z.bits_inj'. intros q _.
    rewrite !update_bits by (try apply update_in_range; assumption).
    destruct (q =? p); reflexivity.
  - rewrite !update_no_bit by (try apply update_in_range; assumption).
    reflexivity.
Qed.

(** X2: Writes to two different positions commute: the bitmask does not depend
    on the order in which two runners report. *)
Theorem update_commutes s (p q : Z) (v v' : bool) :
  U64.in_range s -> p <> q ->
  update (update s p v) q v' = update (update s q v') p v.
Proof.
  intros Hs Hne.
  destruct (decide (0 <= p < U64.width)) as [Hp|Hp];
    destruct (decide (0 <= q < U64.width)) as [Hq|Hq].
  - apply Z.bits_inj'. intros b _.
    rewrite !update_bits by (try apply update_in_range; assumption).
    destruct (Z.eqb_spec b q) as [Hbq|Hbq], (Z.eqb_spec b p) as [Hbp|Hbp];
      try reflexivity. congruence.
  - rewrite (update_no_bit (update s p v) q) by (try apply update_in_range; assumption).
    rewrite (update_no_bit s q) by assumption. reflexivity.
  - rewrite (update_no_bit s p) by assumption.
    rewrite (update_no_bit (update s q v') p) by (try apply update_in_range; assumption).
    reflexivity.
  - rewrite !update_no_bit by (try apply update_in_range; assumption). reflexivity.
Qed.

(** *** Results of different checks compose *)

Lemma record_unfold d (p : nat) hc (raw : error) :
  heap d !! p = Some hc ->
  record call_aspect d p raw =
    {| heap := <[p := match transformed call_aspect (check hc) raw with
                      | None => set_state hc true ""
                      | Some text => set_state hc false text
                      end]> (heap d);
       items := items d;
       status := update (status d) (pos hc)
                        match transformed call_aspect (check hc) raw with
                        | None => true
                        | Some _ => false
                        end |}.
Proof.
  intros Hp. unfold record. rewrite Hp.
  destruct (transformed call_aspect (check hc) raw); reflexivity.
Qed.



(** *** Worlds in which no name is registered twice *)

Lemma NewDoctor_consistent : consistent (NewDoctor handler aspect).
Proof.
  unfold consistent. simpl. split_and!.
  - unfold U64.in_range, U64.modulus, U64.width. lia.
  - apply map_size_empty.
  - lia.
  - intros i hc Hi. rewrite lookup_nil in Hi. discriminate.
  - intros n i Hn. rewrite lookup_empty in Hn. discriminate.
  - intros q _. apply Z.testbit_0_l.
Qed.

Lemma Investigate_consistent w (c : nat) (healthCheck : Check handler aspect) :
  consistent (doctor w) ->
  items (doctor w) !! Name healthCheck = None ->
  consistent (doctor (fst (Investigate c healthCheck w))).
Proof.
  intros Hcons Hfresh. unfold Investigate.
  destruct (Z.ltb_spec (Z.of_nat (size (items (doctor w)))) treshold) as [Hlt|Hge];
    [|exact Hcons].
  destruct Hcons as (Hs & Hsize & Hlen & Hobj & Hname & Hhigh).
  cbn [fst doctor]. rewrite Hsize in *.
  set (n := length (heap (doctor w))) in *.
  assert (Hn : 0 <= Z.of_nat n < U64.width)
    by (unfold treshold, U64.width in *; lia).
  unfold consistent. cbn [heap items status]. split_and!.
  - apply update_in_range, Hs.
  - rewrite map_size_insert_None by exact Hfresh.
    rewrite length_app, Hsize. simpl. lia.
  - rewrite length_app. simpl. unfold treshold in Hlt. lia.
  - intros i hc Hi.
    destruct (decide (i < n)%nat) as [Hin|Hout].
    + rewrite lookup_app_l in Hi by exact Hin.
      destruct (Hobj i hc Hi) as (Hpos & Hnm & Hbit & Hmsg). split_and!.
      * exact Hpos.
      * rewrite lookup_insert_ne; [exact Hnm | congruence].
      * rewrite update_testbit_other; [exact Hbit | exact Hs | exact Hn | lia].
      * exact Hmsg.
    + rewrite lookup_app_r in Hi by (fold n; lia). fold n in Hi.
      destruct (i - n)%nat as [|j] eqn:Hj; simpl in Hi;
        [|try rewrite lookup_nil in Hi; discriminate].
      inversion Hi. subst hc. clear Hi.
      assert (i = n) as -> by (pose proof (lookup_ge_None_2 (heap (doctor w)) n); lia).
      cbn [pos check healthy msg]. split_and!.
      * reflexivity.
      * apply lookup_insert_eq.
      * apply (update_testbit_same _ _ false), Hn.
      * discriminate.
  - intros name i Hi.
    destruct (decide (Name healthCheck = name)) as [Heq|Hne].
    + subst name. rewrite lookup_insert_eq in Hi. inversion Hi. subst i.
      eexists. split.
      * rewrite lookup_app_r by (fold n; lia). rewrite Nat.sub_diag. reflexivity.
      * reflexivity.
    + rewrite lookup_insert_ne in Hi by exact Hne.
      destruct (Hname name i Hi) as (hc & Hhc & Hnm).
      exists hc. split; [|exact Hnm].
      rewrite lookup_app_l; [exact Hhc | eapply lookup_lt_Some, Hhc].
  - intros q Hq. rewrite length_app in Hq. simpl in Hq. fold n in Hq.
    rewrite update_testbit_other; [apply Hhigh; fold n; lia | exact Hs | exact Hn | lia].
Qed.

Lemma record_consistent d (p : nat) (raw : error) :
  consistent d -> consistent (record call_aspect d p raw).
Proof.
  intros Hcons.
  destruct (heap d !! p) as [hp|] eqn:Hp;
    [|unfold record; rewrite Hp; exact Hcons].
  destruct Hcons as (Hs & Hsize & Hlen & Hobj & Hname & Hhigh).
  pose proof (lookup_lt_Some _ _ _ Hp) as Hlt.
  destruct (Hobj p hp Hp) as (Hpos & Hnm & Hbit & Hmsg).
  assert (Hrange : 0 <= pos hp < U64.width)
    by (rewrite Hpos; unfold U64.width; lia).
  rewrite (record_unfold _ _ _ _ Hp).
  unfold consistent. cbn [heap items status]. rewrite length_insert. split_and!.
  - apply update_in_range, Hs.
  - exact Hsize.
  - exact Hlen.
  - intros i hc Hi. destruct (decide (i = p)) as [->|Hne].
    + rewrite list_lookup_insert_eq in Hi by exact Hlt. inversion Hi. clear Hi.
      rewrite <- Hpos, update_testbit_same by exact Hrange.
      destruct (transformed call_aspect (check hp) raw);
        cbn [set_state pos check healthy msg]; split_and!; auto; discriminate.
    + rewrite list_lookup_insert_ne in Hi by congruence.
      destruct (Hobj i hc Hi) as (Hpos' & Hnm' & Hbit' & Hmsg'). split_and!; auto.
      rewrite update_testbit_other; [exact Hbit' | exact Hs | exact Hrange | lia].
  - intros n i Hi. destruct (Hname n i Hi) as (hc & Hhc & Hn).
    destruct (decide (i = p)) as [->|Hne].
    + rewrite Hp in Hhc. inversion Hhc. subst hc. eexists. split.
      * apply list_lookup_insert_eq, Hlt.
      * destruct (transformed call_aspect (check hp) raw); exact Hn.
    + exists hc. split; [|exact Hn].
      rewrite list_lookup_insert_ne by congruence. exact Hhc.
  - intros q Hq.
    rewrite update_testbit_other; [apply Hhigh, Hq | exact Hs | exact Hrange | lia].
Qed.

Lemma step_doctor w w' (e : event) :
  step call_aspect w e = Next w' ->
  doctor w' = doctor w \/
  exists (p : nat) (raw : error), doctor w' = record call_aspect (doctor w) p raw.
Proof.
  intros Hstep.
  destruct e as [p|p|p k [raw|m]|p|c|p];
    try (left; eapply step_silent; [|exact Hstep]; intros; discriminate).
  - simpl in Hstep. destruct (finish (p, k) (handlers w)); [|discriminate].
    inversion Hstep. right. exists p, raw. reflexivity.
  - simpl in Hstep. destruct (finish (p, k) (handlers w)); discriminate.
Qed.

Lemma acts_consistent (l : list action) :
  forall w w',
    consistent (doctor w) ->
    NoDup (call_names l) ->
    (forall n : string, n ∈ call_names l -> items (doctor w) !! n = None) ->
    acts call_aspect l w = Next w' ->
    consistent (doctor w').
Proof.
  induction l as [|a l IH]; intros w w' Hcons Hnd Hfresh Hacts.
  - inversion Hacts. subst w'. exact Hcons.
  - cbn [acts] in Hacts.
    destruct (act call_aspect w a) as [w1| |m] eqn:Hact; try discriminate.
    destruct a as [c healthCheck|e].
    + unfold call_names in Hnd, Hfresh. cbn [omap list_omap] in Hnd, Hfresh.
      fold (call_names l) in Hnd, Hfresh.
      apply NoDup_cons in Hnd as [Hnotin Hnd].
      simpl in Hact. inversion Hact. subst w1. clear Hact.
      apply (IH (fst (Investigate c healthCheck w)) w'); [| exact Hnd | | exact Hacts].
      * apply Investigate_consistent; [exact Hcons|]. apply Hfresh. left.
      * intros n Hn. unfold Investigate.
        destruct (_ <? _); cbn [fst doctor items].
        -- rewrite lookup_insert_ne by (intros Heq; subst n; contradiction).
           apply Hfresh. right. exact Hn.
        -- apply Hfresh. right. exact Hn.
    + unfold call_names in Hnd, Hfresh. cbn [omap list_omap] in Hnd, Hfresh.
      fold (call_names l) in Hnd, Hfresh.
      simpl in Hact.
      destruct (step_doctor _ _ _ Hact) as [Hsame | (p & raw & Hrec)].
      * apply (IH w1 w'); [rewrite Hsame; exact Hcons | exact Hnd | | exact Hacts].
        rewrite Hsame. exact Hfresh.
      * apply (IH w1 w'); [| exact Hnd | | exact Hacts].
        -- rewrite Hrec. apply record_consistent, Hcons.
        -- rewrite Hrec, record_items. exact Hfresh.
Qed.

Lemma consistent_Healthy d :
  consistent d ->
  (Healthy d = true <->
   forall (i : nat) hc, heap d !! i = Some hc -> healthy hc = true).
Proof.
  intros (Hs & Hsize & Hlen & Hobj & Hname & Hhigh). unfold Healthy.
  rewrite Z.eqb_eq. split.
  - intros Hzero i hc Hi. destruct (Hobj i hc Hi) as (_ & _ & Hbit & _).
    rewrite Hzero, Z.testbit_0_l in Hbit. destruct (healthy hc); [reflexivity|discriminate].
  - intros Hall. apply Z.bits_inj'. intros q Hq. rewrite Z.testbit_0_l.
    destruct (Z_lt_le_dec q (Z.of_nat (length (heap d)))) as [Hlow|Hge];
      [|apply Hhigh, Hge].
    assert (Hlt : (Z.to_nat q < length (heap d))%nat) by lia.
    destruct (lookup_lt_is_Some_2 _ _ Hlt) as [hc Hi].
    destruct (Hobj _ hc Hi) as (_ & _ & Hbit & _).
    rewrite Z2Nat.id in Hbit by exact Hq.
    rewrite Hbit, (Hall _ hc Hi). reflexivity.
Qed.

Lemma consistent_unhealthy_witness d :
  consistent d -> Healthy d = false ->
  exists (i : nat) hc, heap d !! i = Some hc /\ healthy hc = false.
Proof.
  intros (Hs & Hsize & Hlen & Hobj & Hname & Hhigh). unfold Healthy.
  rewrite Z.eqb_neq. intros Hnz.
  assert (Hpos : 0 < status d) by (destruct Hs; lia).
  pose proof (Z.bit_log2 _ Hpos) as Hbit.
  pose proof (Z.log2_nonneg (status d)) as Hlog.
  destruct (Z_lt_le_dec (Z.log2 (status d)) (Z.of_nat (length (heap d)))) as [Hlow|Hge].
  - assert (Hlt : (Z.to_nat (Z.log2 (status d)) < length (heap d))%nat) by lia.
    destruct (lookup_lt_is_Some_2 _ _ Hlt) as [hc Hi].
    destruct (Hobj _ hc Hi) as (_ & _ & Hb & _).
    rewrite Z2Nat.id, Hbit in Hb by exact Hlog.
    exists (Z.to_nat (Z.log2 (status d))), hc. split; [exact Hi|].
    destruct (healthy hc); [discriminate|reflexivity].
  - rewrite (Hhigh _ Hge) in Hbit. discriminate.
Qed.

Lemma consistent_failing d (n m : string) :
  consistent d ->
  (failing d !! n = Some m <->
   exists (p : nat) hc,
     items d !! n = Some p /\ heap d !! p = Some hc /\
     healthy hc = false /\ msg hc = m /\ m <> "").
Proof.
  intros (Hs & Hsize & Hlen & Hobj & Hname & Hhigh).
  rewrite failing_lookup. split.
  - destruct (items d !! n) as [p|] eqn:Hn; [|discriminate]. simpl.
    intros Hm. apply message_of_Some in Hm as (hc & Hp & Hmsg & Hne).
    exists p, hc. split_and!; auto.
    destruct (Hobj p hc Hp) as (_ & _ & _ & Hh).
    destruct (healthy hc); [|reflexivity].
    exfalso. apply Hne. rewrite <- Hmsg. apply Hh. reflexivity.
  - intros (p & hc & -> & Hp & _ & Hmsg & Hne). simpl.
    apply message_of_Some. exists hc. auto.
Qed.

(** A run from a new doctor in which [Investigate] is never called twice
    under one name. *)
Lemma distinct_run_consistent (l : list action) w :
  NoDup (call_names l) ->
  acts call_aspect l (NewWorld handler aspect) = Next w ->
  consistent (doctor w).
Proof.
  intros Hnd Hacts.
  apply (acts_consistent l (NewWorld handler aspect) w);
    [apply NewDoctor_consistent | exact Hnd | | exact Hacts].
  intros n _. apply lookup_empty.
Qed.

Lemma consistent_Healthy_registered d :
  consistent d ->
  (Healthy d = true <->
   forall (n : string) (p : nat) hc,
     items d !! n = Some p -> heap d !! p = Some hc -> healthy hc = true) /\
  (Healthy d = false <->
   exists (n : string) (p : nat) hc,
     items d !! n = Some p /\ heap d !! p = Some hc /\ healthy hc = false).
Proof.
  intros Hcons.
  pose proof (consistent_Healthy _ Hcons) as Hiff.
  pose proof Hcons as (Hs & Hsize & Hlen & Hobj & Hname & Hhigh).
  assert (Hpos : Healthy d = true <->
                 forall (n : string) (p : nat) hc,
                   items d !! n = Some p ->
                   heap d !! p = Some hc -> healthy hc = true).
  { rewrite Hiff. split.
    - intros Hall n p hc _ Hp. exact (Hall p hc Hp).
    - intros Hall i hc Hi. destruct (Hobj i hc Hi) as (_ & Hnm & _).
      exact (Hall _ i hc Hnm Hi). }
  split; [exact Hpos|]. split.
  - intros Hfalse.
    destruct (consistent_unhealthy_witness d Hcons Hfalse) as (i & hc & Hi & Hh).
    destruct (Hobj i hc Hi) as (_ & Hnm & _).
    exists (Name (check hc)), i, hc. auto.
  - intros (n & p & hc & Hn & Hp & Hh).
    destruct (Healthy d) eqn:HH; [|reflexivity].
    destruct Hpos as [Hto _]. rewrite (Hto eq_refl n p hc Hn Hp) in Hh. discriminate.
Qed.

(** X5: While no name has been registered twice, [Healthy] answers true
    exactly when every registered check is stored as healthy, and it
    answers false exactly when some registered check is stored as
    unhealthy. *)
Theorem Healthy_iff_every_check_healthy (l : list action) w :
  NoDup (call_names l) ->
  acts call_aspect l (NewWorld handler aspect) = Next w ->
  (Healthy (doctor w) = true <->
   forall (n : string) (p : nat) hc,
     items (doctor w) !! n = Some p -> heap (doctor w) !! p = Some hc ->
     healthy hc = true) /\
  (Healthy (doctor w) = false <->
   exists (n : string) (p : nat) hc,
     items (doctor w) !! n = Some p /\ heap (doctor w) !! p = Some hc /\
     healthy hc = false).
Proof.
  intros Hnd Hacts.
  apply consistent_Healthy_registered, (distinct_run_consistent l w Hnd Hacts).
Qed.

(** X6: While no name has been registered twice, [failing] lists exactly the
    registered checks stored as unhealthy with a non-empty message, each
    with that message; it is empty whenever [Healthy] answers true. *)
Theorem failing_lists_unhealthy_checks (l : list action) w :
  NoDup (call_names l) ->
  acts call_aspect l (NewWorld handler aspect) = Next w ->
  (forall n m : string,
      failing (doctor w) !! n = Some m <->
      exists (p : nat) hc,
        items (doctor w) !! n = Some p /\ heap (doctor w) !! p = Some hc /\
        healthy hc = false /\ msg hc = m /\ m <> "") /\
  (Healthy (doctor w) = true -> failing (doctor w) = ∅).
Proof.
  intros Hnd Hacts.
  pose proof (distinct_run_consistent l w Hnd Hacts) as Hcons.
  split; [intros n m; apply consistent_failing, Hcons|].
  intros Hh. apply map_eq. intros n. rewrite lookup_empty.
  destruct (failing (doctor w) !! n) as [m|] eqn:Hm; [|reflexivity].
  apply (consistent_failing _ _ _ Hcons) in Hm as (p & hc & _ & Hp & Hfalse & _).
  pose proof (proj1 (consistent_Healthy _ Hcons) Hh p hc Hp) as Htrue.
  rewrite Htrue in Hfalse. discriminate.
Qed.

(** *** The status page *)

Lemma Handler_healthy d :
  Healthy d = true ->
  Doctor_Handler d =
    {| contentType := "application/json; charset=utf-8";
       statusCode := StatusOK;
       encoded := {| Status := "up"; Errors := None |} |}.
Proof.
  unfold Healthy, Doctor_Handler. intros ->. reflexivity.
Qed.

Lemma Handler_unhealthy d :
  Healthy d = false ->
  Doctor_Handler d =
    {| contentType := "application/json; charset=utf-8";
       statusCode := StatusServiceUnavailable;
       encoded := {| Status := "down"; Errors := Some (failing d) |} |}.
Proof.
  unfold Healthy, Doctor_Handler. intros ->. reflexivity.
Qed.

(** X7: While no name has been registered twice, [Handler] answers with
    status code 200 and hands the encoder the status "up" and a nil error
    map when every registered check is stored as healthy; when one is not,
    it answers 503 and hands the encoder the status "down" and the map of
    [failing], whose entries are exactly the unhealthy checks with a
    non-empty message. *)
Theorem status_page_reports_health (l : list action) w :
  NoDup (call_names l) ->
  acts call_aspect l (NewWorld handler aspect) = Next w ->
  let page := Doctor_Handler (doctor w) in
  contentType page = "application/json; charset=utf-8" /\
  ((forall (n : string) (p : nat) hc,
       items (doctor w) !! n = Some p -> heap (doctor w) !! p = Some hc ->
       healthy hc = true) ->
   statusCode page = 200 /\
   encoded page = {| Status := "up"; Errors := None |}) /\
  ((exists (n : string) (p : nat) hc,
       items (doctor w) !! n = Some p /\ heap (doctor w) !! p = Some hc /\
       healthy hc = false) ->
   statusCode page = 503 /\
   encoded page = {| Status := "down"; Errors := Some (failing (doctor w)) |}) /\
  (forall n m : string,
      (exists errs, Errors (encoded page) = Some errs /\ errs !! n = Some m) <->
      exists (p : nat) hc,
        items (doctor w) !! n = Some p /\ heap (doctor w) !! p = Some hc /\
        healthy hc = false /\ msg hc = m /\ m <> "").
Proof.
  intros Hnd Hacts page.
  pose proof (distinct_run_consistent l w Hnd Hacts) as Hcons.
  destruct (consistent_Healthy_registered _ Hcons) as [Hup Hdown].
  unfold page. destruct (Healthy (doctor w)) eqn:Hh.
  - rewrite (Handler_healthy _ Hh). cbn [contentType statusCode encoded Errors].
    split_and!.
    + reflexivity.
    + intros _. split; reflexivity.
    + intros Hex. apply Hdown in Hex. discriminate.
    + intros n m. split.
      * intros (errs & Hnone & _). discriminate.
      * intros (p & hc & Hn & Hp & Hfalse & _).
        rewrite (proj1 Hup eq_refl n p hc Hn Hp) in Hfalse. discriminate.
  - rewrite (Handler_unhealthy _ Hh).
    cbn [contentType statusCode encoded Status Errors].
    split_and!.
    + reflexivity.
    + intros Hall. apply Hup in Hall. discriminate.
    + intros _. split; reflexivity.
    + intros n m. rewrite <- (consistent_failing _ n m Hcons). split.
      * intros (errs & Herrs & Hn). inversion Herrs. subst errs. exact Hn.
      * intros Hn. exists (failing (doctor w)). split; [reflexivity | exact Hn].
Qed.

(** *** The listener *)

(** X8: [Accept] passes an error of the wrapped listener through and then
    closes nothing; it never turns bad health into an error: the new
    connection is handed back with a nil error and is the only connection
    it may close, which it does exactly when [Healthy] answers false. It
    panics only if the wrapped listener returns neither a connection nor an
    error while the service is unhealthy. *)
Theorem Accept_touches_only_the_new_connection
  d (inner : option nat * error) (closed : gset nat) :
  ((Accept d inner closed).1 = AcceptPanics <->
   inner = (None, None) /\ Healthy d = false) /\
  (forall (c : option nat) (err : error),
      (Accept d inner closed).1 = Accepts c err ->
      err = inner.2 /\
      c = match inner.2 with Some _ => None | None => inner.1 end) /\
  (forall x : nat,
      x ∈ (Accept d inner closed).2 <->
      x ∈ closed \/ (inner = (Some x, None) /\ Healthy d = false)).
Proof.
  destruct inner as [[c|] [e|]]; unfold Accept;
    destruct (Healthy d); cbn [negb fst snd]; split_and!.
  all: try (split; [discriminate | intros [Hin Hh]; discriminate]).
  all: try (intros c' err' [= <- <-]; split; reflexivity).
  all: try (intros c' err' Heq; discriminate).
  all: try (split; [intros _; split; reflexivity | reflexivity]).
  all: intros x; rewrite ?elem_of_union, ?elem_of_singleton.
  all: split;
    [ intros H; try (destruct H as [->|H]; [right; split; reflexivity|]); left; exact H
    | intros [H|[Heq Hf]]; try discriminate; try exact H;
      try (inversion Heq; subst; left; reflexivity); right; exact H ].
Qed.

(** X9: While no name has been registered twice, the connection [Accept]
    hands back is closed exactly when some registered check is stored as
    unhealthy; the error stays nil either way. *)
Theorem listener_closes_iff_some_check_unhealthy
  (l : list action) w (c : nat) (closed : gset nat) :
  NoDup (call_names l) ->
  acts call_aspect l (NewWorld handler aspect) = Next w ->
  c ∉ closed ->
  (Accept (doctor w) (Some c, None) closed).1 = Accepts (Some c) None /\
  (c ∈ (Accept (doctor w) (Some c, None) closed).2 <->
   exists (n : string) (p : nat) hc,
     items (doctor w) !! n = Some p /\ heap (doctor w) !! p = Some hc /\
     healthy hc = false).
Proof.
  intros Hnd Hacts Hc.
  pose proof (distinct_run_consistent l w Hnd Hacts) as Hcons.
  destruct (consistent_Healthy_registered _ Hcons) as [_ Hdown].
  rewrite <- Hdown. unfold Accept.
  destruct (Healthy (doctor w)); cbn [negb fst snd]; split; try reflexivity.
  - split; [contradiction | discriminate].
  - split; [reflexivity | intros _; apply elem_of_union; left; apply elem_of_singleton; reflexivity].
Qed.

(** *** Every world: bits are attributed to objects *)

Lemma map_size_insert_le (m : gmap string nat) (k : string) (x : nat) :
  (size m <= size (<[k := x]> m) <= S (size m))%nat.
Proof. rewrite map_size_insert. destruct (m !! k); simpl; lia. Qed.

Lemma NewDoctor_attributed : attributed (NewDoctor handler aspect).
Proof.
  unfold attributed. simpl. split_and!.
  - unfold U64.in_range, U64.modulus, U64.width. lia.
  - rewrite map_size_empty. lia.
  - intros i hc Hi. rewrite lookup_nil in Hi. discriminate.
  - intros n i Hn. rewrite lookup_empty in Hn. discriminate.
  - intros q Hq. rewrite Z.testbit_0_l in Hq. discriminate.
Qed.

Lemma Investigate_attributed w (c : nat) (healthCheck : Check handler aspect) :
  attributed (doctor w) ->
  attributed (doctor (fst (Investigate c healthCheck w))).
Proof.
  intros Hatt. unfold Investigate.
  destruct (Z.ltb_spec (Z.of_nat (size (items (doctor w)))) treshold) as [Hlt|Hge];
    [|exact Hatt].
  destruct Hatt as (Hs & Hsz & Hpos & Hptr & Hbits).
  cbn [fst doctor].
  pose proof (map_size_insert_le (items (doctor w)) (Name healthCheck)
                (length (heap (doctor w)))) as Hins.
  assert (Hn : 0 <= Z.of_nat (size (items (doctor w))) < U64.width)
    by (unfold treshold, U64.width in *; lia).
  unfold attributed. cbn [heap items status]. split_and!.
  - apply update_in_range, Hs.
  - unfold treshold in Hlt. lia.
  - intros i hc Hi.
    destruct (decide (i < length (heap (doctor w)))%nat) as [Hin|Hout].
    + rewrite lookup_app_l in Hi by exact Hin.
      destruct (Hpos i hc Hi) as [Hp1 Hp2]. split; [lia | exact Hp2].
    + rewrite lookup_app_r in Hi by lia.
      destruct (i - length (heap (doctor w)))%nat; simpl in Hi;
        [|try rewrite lookup_nil in Hi; discriminate].
      inversion Hi. cbn [pos]. split; [lia | exact Hlt].
  - intros n i Hi. rewrite length_app. simpl.
    destruct (decide (Name healthCheck = n)) as [Heq|Hne].
    + subst n. rewrite lookup_insert_eq in Hi. inversion Hi. lia.
    + rewrite lookup_insert_ne in Hi by exact Hne.
      pose proof (Hptr n i Hi). lia.
  - intros q Hq.
    destruct (Z.eq_dec q (Z.of_nat (size (items (doctor w))))) as [->|Hne].
    + exists (length (heap (doctor w))). eexists. split_and!.
      * rewrite lookup_app_r by lia. rewrite Nat.sub_diag. reflexivity.
      * reflexivity.
      * reflexivity.
    + rewrite update_testbit_other in Hq by assumption.
      destruct (Hbits q Hq) as (i & hc & Hi & Hp & Hh).
      exists i, hc. split_and!; auto.
      rewrite lookup_app_l; [exact Hi | eapply lookup_lt_Some, Hi].
Qed.

Lemma record_attributed d (p : nat) (raw : error) :
  attributed d -> attributed (record call_aspect d p raw).
Proof.
  intros Hatt.
  destruct (heap d !! p) as [hp|] eqn:Hp;
    [|unfold record; rewrite Hp; exact Hatt].
  destruct Hatt as (Hs & Hsz & Hpos & Hptr & Hbits).
  pose proof (lookup_lt_Some _ _ _ Hp) as Hlt.
  assert (Hrange : 0 <= pos hp < U64.width).
  { destruct (Hpos p hp Hp) as [Hp1 Hp2]. unfold treshold, U64.width in *. lia. }
  rewrite (record_unfold _ _ _ _ Hp).
  unfold attributed. cbn [heap items status]. rewrite length_insert. split_and!.
  - apply update_in_range, Hs.
  - exact Hsz.
  - intros i hc Hi. destruct (decide (i = p)) as [->|Hne].
    + rewrite list_lookup_insert_eq in Hi by exact Hlt. inversion Hi.
      destruct (transformed call_aspect (check hp) raw); cbn [set_state pos];
        apply (Hpos p hp Hp).
    + rewrite list_lookup_insert_ne in Hi by congruence. apply (Hpos i hc Hi).
  - exact Hptr.
  - intros q Hq.
    destruct (Z.eq_dec q (pos hp)) as [->|Hne].
    + rewrite update_testbit_same in Hq by exact Hrange.
      exists p. eexists. split; [apply list_lookup_insert_eq, Hlt|].
      destruct (transformed call_aspect (check hp) raw);
        cbn [set_state pos healthy]; [split; reflexivity | discriminate].
    + rewrite update_testbit_other in Hq by assumption.
      destruct (Hbits q Hq) as (i & hc & Hi & Hpq & Hh).
      exists i, hc. split_and!; auto.
      rewrite list_lookup_insert_ne; [exact Hi|].
      intros ->. rewrite Hp in Hi. inversion Hi. congruence.
Qed.

Lemma acts_attributed (l : list action) :
  forall w w',
    attributed (doctor w) ->
    acts call_aspect l w = Next w' ->
    attributed (doctor w').
Proof.
  induction l as [|a l IH]; intros w w' Hatt Hacts.
  - inversion Hacts. subst w'. exact Hatt.
  - cbn [acts] in Hacts.
    destruct (act call_aspect w a) as [w1| |m] eqn:Hact; try discriminate.
    apply (IH w1 w'); [|exact Hacts].
    destruct a as [c healthCheck|e]; simpl in Hact.
    + inversion Hact. apply Investigate_attributed, Hatt.
    + destruct (step_doctor _ _ _ Hact) as [Hsame | (p & raw & Hrec)].
      * rewrite Hsame. exact Hatt.
      * rewrite Hrec. apply record_attributed, Hatt.
Qed.

Lemma bits_below (n x : Z) :
  0 <= n -> 0 <= x ->
  (forall q : Z, n <= q -> Z.testbit x q = false) -> x < 2 ^ n.
Proof.
  intros Hn Hx Hhigh.
  destruct (Z.eq_dec x 0) as [->|Hne]; [apply Z.pow_pos_nonneg; lia|].
  assert (Hlog : Z.log2 x < n).
  { destruct (Z_lt_le_dec (Z.log2 x) n) as [Hlt|Hge]; [exact Hlt|].
    specialize (Hhigh (Z.log2 x) Hge).
    rewrite Z.bit_log2 in Hhigh by lia. discriminate. }
  apply Z.log2_lt_pow2; lia.
Qed.

(** X10: In every world the package can reach, names reused or not: the
    registry never holds more than 63 names, every name points at an
    allocated object, the status stays below 2^63 (bit 63 is never used),
    and whenever [Healthy] answers false some allocated object is stored as
    unhealthy at a position whose bit is set. *)
Theorem reachable_status_is_attributed (l : list action) w :
  acts call_aspect l (NewWorld handler aspect) = Next w ->
  (size (items (doctor w)) <= 63)%nat /\
  (forall (n : string) (p : nat),
      items (doctor w) !! n = Some p -> is_Some (heap (doctor w) !! p)) /\
  0 <= status (doctor w) < 2 ^ 63 /\
  (Healthy (doctor w) = false ->
   exists (i : nat) hc,
     heap (doctor w) !! i = Some hc /\ healthy hc = false /\
     Z.testbit (status (doctor w)) (pos hc) = true).
Proof.
  intros Hacts.
  destruct (acts_attributed l (NewWorld handler aspect) w NewDoctor_attributed Hacts)
    as (Hs & Hsz & Hpos & Hptr & Hbits).
  split_and!.
  - exact Hsz.
  - intros n p Hn. apply lookup_lt_is_Some_2, (Hptr n p Hn).
  - apply Hs.
  - apply bits_below; [lia | apply Hs |].
    intros q Hq. destruct (Z.testbit (status (doctor w)) q) eqn:Hb; [|reflexivity].
    destruct (Hbits q Hb) as (i & hc & Hi & Hp & _).
    destruct (Hpos i hc Hi) as [_ Hlt]. unfold treshold in Hlt. lia.
  - unfold Healthy. rewrite Z.eqb_neq. intros Hnz.
    assert (Hposs : 0 < status (doctor w)) by (destruct Hs; lia).
    pose proof (Z.bit_log2 _ Hposs) as Hbit.
    destruct (Hbits _ Hbit) as (i & hc & Hi & Hp & Hh).
    exists i, hc. split_and!; auto. rewrite Hp. exact Hbit.
Qed.

(** *** Goroutines *)

Lemma finish_Some_inv (x : nat * nat) (hs hs' : list (nat * nat)) :
  finish x hs = Some hs' ->
  x ∈ hs /\
  (forall y, y ∈ hs' -> y ∈ hs) /\
  (NoDup hs -> NoDup hs' /\ x ∉ hs').
Proof.
  revert hs'. induction hs as [|y hs IH]; intros hs' Hf; simpl in Hf;
    [discriminate|].
  case_bool_decide as Hxy.
  - inversion Hf. subst y hs'. split_and!.
    + left.
    + intros z Hz. right. exact Hz.
    + intros Hnd. apply NoDup_cons in Hnd as [Hnotin Hnd]. split; assumption.
  - destruct (finish x hs) as [hs''|] eqn:Hrec; [|discriminate].
    inversion Hf. subst hs'. destruct (IH hs'' eq_refl) as (Hin & Hsub & Hnd').
    split_and!.
    + right. exact Hin.
    + intros z Hz. apply elem_of_cons in Hz as [->|Hz]; [left | right; auto].
    + intros Hnd. apply NoDup_cons in Hnd as [Hnotin Hnd].
      destruct (Hnd' Hnd) as [Hnd'' Hx]. split.
      * apply NoDup_cons. split; [|exact Hnd'']. intros Hy. apply Hnotin, Hsub, Hy.
      * intros Hx'. apply elem_of_cons in Hx' as [Heq|Hx']; [congruence | auto].
Qed.

Lemma finish_None (x : nat * nat) (hs : list (nat * nat)) :
  x ∉ hs -> finish x hs = None.
Proof.
  induction hs as [|y hs IH]; intros Hx; simpl; [reflexivity|].
  case_bool_decide as Hxy.
  - exfalso. apply Hx. subst y. left.
  - rewrite IH; [reflexivity|]. intros Hin. apply Hx. right. exact Hin.
Qed.

Lemma NewWorld_orderly : orderly (NewWorld handler aspect).
Proof.
  unfold orderly. simpl. split_and!.
  - reflexivity.
  - apply NoDup_nil_2.
  - intros p k Hin. apply elem_of_nil in Hin. contradiction.
  - intros p ru k Hp. rewrite lookup_nil in Hp. discriminate.
  - intros p ru Hp. rewrite lookup_nil in Hp. discriminate.
Qed.

(** Replacing the control point of one runner, its cycle count not
    decreasing. *)
Lemma orderly_set_runner w (p : nat) (ru ru' : runner) (hs : list (nat * nat))
  (cs : list nat) d :
  orderly w ->
  runners w !! p = Some ru ->
  length (heap d) = length (heap (doctor w)) ->
  (cycles ru <= cycles ru')%nat ->
  (forall k, pc ru' = Waiting k -> cycles ru' = S k) ->
  (pc ru' = Returned -> ctx ru' ∈ cs) ->
  NoDup hs ->
  (forall q k, (q, k) ∈ hs -> (q, k) ∈ handlers w \/ (q = p /\ k < cycles ru')%nat) ->
  (forall c, c ∈ cancelled w -> c ∈ cs) ->
  orderly {| doctor := d; runners := <[p := ru']> (runners w);
             handlers := hs; cancelled := cs |}.
Proof.
  intros (Hlen & Hnd & Hhs & Hwait & Hret) Hp Hd Hcyc Hw' Hr' Hnd' Hhs' Hcs.
  pose proof (lookup_lt_Some _ _ _ Hp) as Hlt.
  unfold orderly. cbn [doctor runners handlers cancelled]. split_and!.
  - rewrite length_insert, Hd. exact Hlen.
  - exact Hnd'.
  - intros q k Hin. destruct (decide (q = p)) as [->|Hne].
    + exists ru'. split; [apply list_lookup_insert_eq, Hlt|].
      destruct (Hhs' p k Hin) as [Hold|[_ Hk]]; [|exact Hk].
      destruct (Hhs p k Hold) as (ru0 & Hru0 & Hk). rewrite Hp in Hru0.
      inversion Hru0. subst ru0. lia.
    + destruct (Hhs' q k Hin) as [Hold|[Heq _]]; [|contradiction].
      destruct (Hhs q k Hold) as (ru0 & Hru0 & Hk). exists ru0.
      split; [|exact Hk]. rewrite list_lookup_insert_ne by congruence. exact Hru0.
  - intros q ru0 k Hq Hpc. destruct (decide (q = p)) as [->|Hne].
    + rewrite list_lookup_insert_eq in Hq by exact Hlt. inversion Hq. subst ru0.
      apply Hw', Hpc.
    + rewrite list_lookup_insert_ne in Hq by congruence. exact (Hwait q ru0 k Hq Hpc).
  - intros q ru0 Hq Hpc. destruct (decide (q = p)) as [->|Hne].
    + rewrite list_lookup_insert_eq in Hq by exact Hlt. inversion Hq. subst ru0.
      apply Hr', Hpc.
    + rewrite list_lookup_insert_ne in Hq by congruence.
      apply Hcs, (Hret q ru0 Hq Hpc).
Qed.

(** Leaving the runners as they are. *)
Lemma orderly_keep_runners w (hs : list (nat * nat)) (cs : list nat) d :
  orderly w ->
  length (heap d) = length (heap (doctor w)) ->
  NoDup hs ->
  (forall q k, (q, k) ∈ hs -> (q, k) ∈ handlers w) ->
  (forall c, c ∈ cancelled w -> c ∈ cs) ->
  orderly {| doctor := d; runners := runners w; handlers := hs; cancelled := cs |}.
Proof.
  intros (Hlen & Hnd & Hhs & Hwait & Hret) Hd Hnd' Hhs' Hcs.
  unfold orderly. cbn [doctor runners handlers cancelled]. split_and!.
  - rewrite Hd. exact Hlen.
  - exact Hnd'.
  - intros q k Hin. apply Hhs, Hhs', Hin.
  - exact Hwait.
  - intros q ru0 Hq Hpc. apply Hcs, (Hret q ru0 Hq Hpc).
Qed.

Lemma step_orderly w w' (e : event) :
  orderly w -> step call_aspect w e = Next w' -> orderly w'.
Proof.
  intros Hord Hstep.
  pose proof Hord as (Hlen & Hnd & Hhs & Hwait & Hret).
  destruct e as [p|p|p k [raw|m]|p|c|p]; simpl in Hstep.
  - destruct (runners w !! p) as [ru|] eqn:Hp; [|discriminate].
    destruct (pc ru) eqn:Hpc; try discriminate. inversion Hstep. clear Hstep.
    apply (orderly_set_runner w p ru); auto.
    + simpl. lia.
    + simpl. intros k [= <-]. reflexivity.
    + simpl. discriminate.
    + apply NoDup_cons. split; [|exact Hnd]. intros Hin.
      destruct (Hhs _ _ Hin) as (ru0 & Hru0 & Hk). rewrite Hp in Hru0.
      inversion Hru0. subst ru0. lia.
    + intros q k Hin. apply elem_of_cons in Hin as [[= -> ->]|Hin].
      * right. simpl. split; [reflexivity | lia].
      * left. exact Hin.
  - destruct (runners w !! p) as [ru|] eqn:Hp; [|discriminate].
    destruct (pc ru) eqn:Hpc; try discriminate. inversion Hstep. clear Hstep.
    unfold with_runners. cbn [doctor handlers cancelled].
    apply (orderly_set_runner w p ru); auto; simpl; try discriminate; lia.
  - destruct (finish (p, k) (handlers w)) as [hs|] eqn:Hf; [|discriminate].
    inversion Hstep. clear Hstep.
    destruct (finish_Some_inv _ _ _ Hf) as (Hin & Hsub & Hnd').
    destruct (Hnd' Hnd) as [Hnd'' _].
    unfold cancel. destruct (runners w !! p) as [ru|] eqn:Hp.
    + destruct (pc ru) eqn:Hpc;
        try (apply orderly_keep_runners; auto using record_length).
      destruct (k0 =? k)%nat;
        [|apply orderly_keep_runners; auto using record_length].
      apply (orderly_set_runner w p ru); auto using record_length;
        simpl; try discriminate; lia.
    + apply orderly_keep_runners; auto using record_length.
  - destruct (finish (p, k) (handlers w)); discriminate.
  - destruct (runners w !! p) as [ru|] eqn:Hp; [|discriminate].
    destruct (pc ru) eqn:Hpc; try discriminate. inversion Hstep. clear Hstep.
    unfold with_runners. cbn [doctor handlers cancelled].
    apply (orderly_set_runner w p ru); auto; simpl; try discriminate; lia.
  - inversion Hstep. apply orderly_keep_runners; auto.
    intros c' Hc'. right. exact Hc'.
  - destruct (runners w !! p) as [ru|] eqn:Hp; [|discriminate].
    case_bool_decide as Hctx; [|discriminate].
    destruct (pc ru) eqn:Hpc; try discriminate; inversion Hstep; clear Hstep;
      unfold with_runners; cbn [doctor handlers cancelled];
      apply (orderly_set_runner w p ru); auto; simpl; try discriminate; try lia.
Qed.

Lemma Investigate_orderly w (c : nat) (healthCheck : Check handler aspect) :
  orderly w -> orderly (fst (Investigate c healthCheck w)).
Proof.
  intros Hord. unfold Investigate. destruct (_ <? _); [|exact Hord].
  destruct Hord as (Hlen & Hnd & Hhs & Hwait & Hret).
  unfold orderly. cbn [fst doctor runners handlers cancelled heap]. split_and!.
  - rewrite !length_app, Hlen. reflexivity.
  - exact Hnd.
  - intros p k Hin. destruct (Hhs p k Hin) as (ru & Hru & Hk).
    exists ru. split; [|exact Hk].
    rewrite lookup_app_l; [exact Hru | eapply lookup_lt_Some, Hru].
  - intros p ru k Hp Hpc.
    destruct (decide (p < length (runners w))%nat) as [Hin|Hout].
    + rewrite lookup_app_l in Hp by exact Hin. exact (Hwait p ru k Hp Hpc).
    + rewrite lookup_app_r in Hp by lia.
      destruct (p - length (runners w))%nat; simpl in Hp;
        [|try rewrite lookup_nil in Hp; discriminate].
      inversion Hp. subst ru. discriminate.
  - intros p ru Hp Hpc.
    destruct (decide (p < length (runners w))%nat) as [Hin|Hout].
    + rewrite lookup_app_l in Hp by exact Hin. exact (Hret p ru Hp Hpc).
    + rewrite lookup_app_r in Hp by lia.
      destruct (p - length (runners w))%nat; simpl in Hp;
        [|try rewrite lookup_nil in Hp; discriminate].
      inversion Hp. subst ru. discriminate.
Qed.

Lemma acts_orderly (l : list action) :
  forall w w', orderly w -> acts call_aspect l w = Next w' -> orderly w'.
Proof.
  induction l as [|a l IH]; intros w w' Hord Hacts.
  - inversion Hacts. subst w'. exact Hord.
  - cbn [acts] in Hacts.
    destruct (act call_aspect w a) as [w1| |m] eqn:Hact; try discriminate.
    apply (IH w1 w'); [|exact Hacts].
    destruct a as [c healthCheck|e]; simpl in Hact.
    + inversion Hact. apply Investigate_orderly, Hord.
    + exact (step_orderly _ _ _ Hord Hact).
Qed.

(** X11: In every world the package can reach there is exactly one runner per
    allocated object, a runner has returned only if its context was
    cancelled, and the running handler calls are pairwise different calls
    of cycles their runners have begun. *)
Theorem reachable_goroutines_are_orderly (l : list action) w :
  acts call_aspect l (NewWorld handler aspect) = Next w ->
  length (runners w) = length (heap (doctor w)) /\
  (forall (p : nat) ru, runners w !! p = Some ru ->
     pc ru = Returned -> ctx ru ∈ cancelled w) /\
  NoDup (handlers w) /\
  (forall p k : nat, (p, k) ∈ handlers w ->
     exists ru, runners w !! p = Some ru /\ (k < cycles ru)%nat).
Proof.
  intros Hacts.
  destruct (acts_orderly l _ w NewWorld_orderly Hacts)
    as (Hlen & Hnd & Hhs & Hwait & Hret).
  split_and!; assumption.
Qed.

Lemma act_returned w w' (a : action) (p : nat) (ru : runner) :
  runners w !! p = Some ru -> pc ru = Returned ->
  act call_aspect w a = Next w' ->
  runners w' !! p = Some ru /\
  (forall k : nat, (p, k) ∈ handlers w' -> (p, k) ∈ handlers w).
Proof.
  intros Hp Hpc Hact.
  pose proof (lookup_lt_Some _ _ _ Hp) as Hlt.
  destruct a as [c healthCheck|e]; simpl in Hact.
  - inversion Hact. unfold Investigate. destruct (_ <? _); cbn [fst runners handlers].
    + split; [|auto]. rewrite lookup_app_l by exact Hlt. exact Hp.
    + split; auto.
  - destruct e as [q|q|q k [raw|m]|q|c|q]; simpl in Hact.
    + destruct (runners w !! q) as [rq|] eqn:Hq; [|discriminate].
      destruct (pc rq) eqn:Hpq; try discriminate. inversion Hact.
      cbn [runners handlers].
      assert (Hne : q <> p) by (intros ->; rewrite Hp in Hq; inversion Hq; congruence).
      split.
      * rewrite list_lookup_insert_ne by exact Hne. exact Hp.
      * intros k Hin. apply elem_of_cons in Hin as [Heq|Hin]; [|exact Hin].
        inversion Heq. congruence.
    + destruct (runners w !! q) as [rq|] eqn:Hq; [|discriminate].
      destruct (pc rq) eqn:Hpq; try discriminate. inversion Hact.
      cbn [with_runners runners handlers].
      assert (Hne : q <> p) by (intros ->; rewrite Hp in Hq; inversion Hq; congruence).
      split; [|auto]. rewrite list_lookup_insert_ne by exact Hne. exact Hp.
    + destruct (finish (q, k) (handlers w)) as [hs|] eqn:Hf; [|discriminate].
      inversion Hact. cbn [runners handlers].
      destruct (finish_Some_inv _ _ _ Hf) as (_ & Hsub & _). split.
      * unfold cancel. destruct (runners w !! q) as [rq|] eqn:Hq; [|exact Hp].
        destruct (pc rq) eqn:Hpq; try exact Hp.
        destruct (_ =? _)%nat; [|exact Hp].
        rewrite list_lookup_insert_ne; [exact Hp|].
        intros ->. rewrite Hp in Hq. inversion Hq. congruence.
      * intros k' Hin. apply Hsub, Hin.
    + destruct (finish (q, k) (handlers w)); discriminate.
    + destruct (runners w !! q) as [rq|] eqn:Hq; [|discriminate].
      destruct (pc rq) eqn:Hpq; try discriminate. inversion Hact.
      cbn [with_runners runners handlers].
      assert (Hne : q <> p) by (intros ->; rewrite Hp in Hq; inversion Hq; congruence).
      split; [|auto]. rewrite list_lookup_insert_ne by exact Hne. exact Hp.
    + inversion Hact. split; auto.
    + destruct (runners w !! q) as [rq|] eqn:Hq; [|discriminate].
      destruct (bool_decide _); [|discriminate].
      assert (Hne : q <> p).
      { intros ->. rewrite Hp in Hq. inversion Hq. subst rq.
        rewrite Hpc in Hact. discriminate. }
      destruct (pc rq) eqn:Hpq; try discriminate; inversion Hact;
        cbn [with_runners runners handlers];
        (split; [|auto]); rewrite list_lookup_insert_ne by exact Hne; exact Hp.
Qed.

(** X12: A runner that has returned stays returned whatever happens next: it
    is never restarted and no further handler call is started for its
    object. *)
Theorem returned_runner_never_runs_again
  (l : list action) w w' (p : nat) (ru : runner) :
  runners w !! p = Some ru -> pc ru = Returned ->
  acts call_aspect l w = Next w' ->
  runners w' !! p = Some ru /\
  (forall k : nat, (p, k) ∈ handlers w' -> (p, k) ∈ handlers w).
Proof.
  revert w. induction l as [|a l IH]; intros w Hp Hpc Hacts.
  - inversion Hacts. subst w'. auto.
  - cbn [acts] in Hacts.
    destruct (act call_aspect w a) as [w1| |m] eqn:Hact; try discriminate.
    destruct (act_returned _ _ _ _ _ Hp Hpc Hact) as [Hp1 Hh1].
    destruct (IH w1 Hp1 Hpc Hacts) as [Hp2 Hh2]. split; auto.
Qed.

Lemma act_spent w w' (a : action) (p k : nat) :
  ((p, k) ∉ handlers w) ->
  (exists ru, runners w !! p = Some ru /\ (k < cycles ru)%nat) ->
  act call_aspect w a = Next w' ->
  ((p, k) ∉ handlers w') /\
  (exists ru, runners w' !! p = Some ru /\ (k < cycles ru)%nat).
Proof.
  intros Hnot (ru & Hp & Hk) Hact.
  pose proof (lookup_lt_Some _ _ _ Hp) as Hlt.
  assert (Hset : forall q rq ph, runners w !! q = Some rq ->
            exists ru', <[q := set_pc rq ph]> (runners w) !! p = Some ru' /\
                        (k < cycles ru')%nat).
  { intros q rq ph Hq. destruct (decide (q = p)) as [->|Hne].
    - rewrite Hp in Hq. inversion Hq. subst rq. eexists. split.
      + apply list_lookup_insert_eq, Hlt.
      + exact Hk.
    - exists ru. split; [|exact Hk].
      rewrite list_lookup_insert_ne by exact Hne. exact Hp. }
  destruct a as [c healthCheck|e]; simpl in Hact.
  - inversion Hact. unfold Investigate. destruct (_ <? _); cbn [fst runners handlers].
    + split; [exact Hnot|]. exists ru. split; [|exact Hk].
      rewrite lookup_app_l by exact Hlt. exact Hp.
    + split; eauto.
  - destruct e as [q|q|q j [raw|m]|q|c|q]; simpl in Hact.
    + destruct (runners w !! q) as [rq|] eqn:Hq; [|discriminate].
      destruct (pc rq) eqn:Hpq; try discriminate. inversion Hact.
      cbn [runners handlers]. destruct (decide (q = p)) as [->|Hne].
      * rewrite Hp in Hq. inversion Hq. subst rq. split.
        -- intros Hin. apply elem_of_cons in Hin as [Heq|Hin]; [|contradiction].
           inversion Heq. lia.
        -- eexists. split; [apply list_lookup_insert_eq, Hlt|]. simpl. lia.
      * split.
        -- intros Hin. apply elem_of_cons in Hin as [Heq|Hin]; [|contradiction].
           inversion Heq. congruence.
        -- exists ru. split; [|exact Hk].
           rewrite list_lookup_insert_ne by exact Hne. exact Hp.
    + destruct (runners w !! q) as [rq|] eqn:Hq; [|discriminate].
      destruct (pc rq) eqn:Hpq; try discriminate. inversion Hact.
      cbn [with_runners runners handlers]. split; [exact Hnot | eapply Hset, Hq].
    + destruct (finish (q, j) (handlers w)) as [hs|] eqn:Hf; [|discriminate].
      inversion Hact. cbn [runners handlers].
      destruct (finish_Some_inv _ _ _ Hf) as (_ & Hsub & _). split.
      * intros Hin. apply Hnot, Hsub, Hin.
      * unfold cancel. destruct (runners w !! q) as [rq|] eqn:Hq; [|eauto].
        destruct (pc rq) eqn:Hpq; eauto.
        destruct (_ =? _)%nat; [|eauto]. eapply Hset, Hq.
    + destruct (finish (q, j) (handlers w)); discriminate.
    + destruct (runners w !! q) as [rq|] eqn:Hq; [|discriminate].
      destruct (pc rq) eqn:Hpq; try discriminate. inversion Hact.
      cbn [with_runners runners handlers]. split; [exact Hnot | eapply Hset, Hq].
    + inversion Hact. cbn [runners handlers]. eauto.
    + destruct (runners w !! q) as [rq|] eqn:Hq; [|discriminate].
      destruct (bool_decide _); [|discriminate].
      destruct (pc rq) eqn:Hpq; try discriminate; inversion Hact;
        cbn [with_runners runners handlers];
        (split; [exact Hnot | eapply Hset, Hq]).
Qed.

(** X13: The result of a cycle is recorded at most once: after the handler
    call of cycle [k] of an object has ended, no later world, however it is
    reached, lets a call of that cycle end again. *)
Theorem cycle_is_recorded_at_most_once
  (l l' : list action) w w1 w2 (p k : nat) (raw : error) (res : returned) :
  acts call_aspect l (NewWorld handler aspect) = Next w ->
  step call_aspect w (EvHandler p k (Returns raw)) = Next w1 ->
  acts call_aspect l' w1 = Next w2 ->
  step call_aspect w2 (EvHandler p k res) = Stuck.
Proof.
  intros Hreach Hstep Hlater.
  pose proof (acts_orderly l _ w NewWorld_orderly Hreach)
    as (Hlen & Hnd & Hhs & Hwait & Hret).
  assert (Hspent : ((p, k) ∉ handlers w1) /\
                   exists ru, runners w1 !! p = Some ru /\ (k < cycles ru)%nat).
  { simpl in Hstep.
    destruct (finish (p, k) (handlers w)) as [hs|] eqn:Hf; [|discriminate].
    inversion Hstep. cbn [runners handlers].
    destruct (finish_Some_inv _ _ _ Hf) as (Hin & _ & Hnd').
    destruct (Hnd' Hnd) as [_ Hnotin]. split; [exact Hnotin|].
    destruct (Hhs p k Hin) as (ru & Hru & Hk).
    pose proof (lookup_lt_Some _ _ _ Hru) as Hlt.
    unfold cancel. rewrite Hru.
    destruct (pc ru); eauto. destruct (_ =? _)%nat; eauto.
    eexists. split; [apply list_lookup_insert_eq, Hlt | exact Hk]. }
  clear Hstep Hreach Hlen Hnd Hhs Hwait Hret.
  assert (Hfinal : (p, k) ∉ handlers w2).
  { revert w1 Hspent Hlater. induction l' as [|a l' IH]; intros w1 [Hnot Hru] Hlater.
    - inversion Hlater. subst w2. exact Hnot.
    - cbn [acts] in Hlater.
      destruct (act call_aspect w1 a) as [w1'| |m] eqn:Hact; try discriminate.
      apply (IH w1'); [|exact Hlater].
      exact (act_spent _ _ _ _ _ Hnot Hru Hact). }
  simpl. rewrite (finish_None _ _ Hfinal). reflexivity.
Qed.

(** The end of a handler call always records its result, and it releases
    the runner of the object exactly when it is the call of the cycle the
    runner is waiting on: the late return of an abandoned call does not cut
    the current cycle short. *)
Theorem handler_return_releases_only_its_own_cycle
  w (p k k' : nat) (ru : runner) (raw : error) (hs : list (nat * nat)) :
  runners w !! p = Some ru -> pc ru = Waiting k ->
  finish (p, k') (handlers w) = Some hs ->
  exists w',
    step call_aspect w (EvHandler p k' (Returns raw)) = Next w' /\
    doctor w' = record call_aspect (doctor w) p raw /\
    handlers w' = hs /\
    runners w' !! p = Some (if (k =? k')%nat then set_pc ru Sleeping else ru) /\
    forall q : nat, q <> p -> runners w' !! q = runners w !! q.
Proof.
  intros Hp Hpc Hf. pose proof (lookup_lt_Some _ _ _ Hp) as Hlt.
  eexists. split; [simpl; rewrite Hf; reflexivity|].
  cbn [doctor handlers runners]. unfold cancel. rewrite Hp, Hpc.
  destruct (k =? k')%nat; split_and!; try reflexivity.
  - apply list_lookup_insert_eq, Hlt.
  - intros q Hq. apply list_lookup_insert_ne. congruence.
  - exact Hp.
Qed.

(** *** One name, many registrations *)

(** X14: Calling [Investigate] again under a name already registered succeeds
    any number of times while the registry holds fewer than 63 names: the
    bound counts names, not calls. The registry keeps its size, and every
    call allocates one more object, all at the same position, and starts
    one more runner. *)
Theorem same_name_registers_without_bound
  w (c : nat) (healthCheck : Check handler aspect) (n : nat) :
  is_Some (items (doctor w) !! Name healthCheck) ->
  Z.of_nat (size (items (doctor w))) < treshold ->
  exists w',
    register_all (replicate n (c, healthCheck)) w = (w', replicate n None) /\
    size (items (doctor w')) = size (items (doctor w)) /\
    heap (doctor w') =
      heap (doctor w) ++
      replicate n {| check := healthCheck; healthy := false; msg := "[n/a]";
                     pos := Z.of_nat (size (items (doctor w))) |} /\
    runners w' =
      runners w ++ replicate n {| ctx := c; cycles := 0; pc := AtCheck |}.
Proof.
  revert w. induction n as [|n IH]; intros w Hin Hroom.
  - exists w. simpl. rewrite !app_nil_r. auto.
  - pose proof (Investigate_accepts w c healthCheck Hroom) as Hinv.
    set (w1 := fst (Investigate c healthCheck w)).
    assert (Hitems : items (doctor w1) =
                     <[Name healthCheck := length (heap (doctor w))]> (items (doctor w)))
      by (unfold w1; rewrite Hinv; reflexivity).
    assert (Hsize : size (items (doctor w1)) = size (items (doctor w)))
      by (rewrite Hitems; apply map_size_insert_Some, Hin).
    destruct (IH w1) as (w' & Hreg & Hsz & Hheap & Hrun).
    { rewrite Hitems. apply lookup_insert_is_Some. left. reflexivity. }
    { rewrite Hsize. exact Hroom. }
    exists w'. cbn [replicate register_all]. fold w1 in Hinv.
    assert (Hw1 : Investigate c healthCheck w = (w1, None))
      by (unfold w1; rewrite Hinv; reflexivity).
    rewrite Hw1, Hreg. split_and!.
    + reflexivity.
    + rewrite Hsz. exact Hsize.
    + rewrite Hheap, Hsize. unfold w1. rewrite Hinv. cbn [fst doctor heap].
      rewrite <- app_assoc. reflexivity.
    + rewrite Hrun. unfold w1. rewrite Hinv. cbn [fst runners].
      rewrite <- app_assoc. reflexivity.
Qed.

(** *** Lock order *)

Lemma schedule_app (ts1 ts2 : list nat) (cfg cfg1 : config) :
  schedule ts1 cfg = Some cfg1 ->
  schedule (ts1 ++ ts2) cfg = schedule ts2 cfg1.
Proof.
  revert cfg. induction ts1 as [|t ts1 IH]; intros cfg Hs; simpl in *.
  - inversion Hs. reflexivity.
  - destruct (advance cfg t) as [cfg'|]; [|discriminate]. apply IH, Hs.
Qed.

Lemma set_mutex_same (L : lock_table) (m : mutex) (s : rwmutex) :
  set_mutex L m s m = s.
Proof. unfold set_mutex. destruct (decide (m = m)); [reflexivity | contradiction]. Qed.

Lemma set_mutex_other (L : lock_table) (m m' : mutex) (s : rwmutex) :
  m' <> m -> set_mutex L m s m' = L m'.
Proof. intros Hne. unfold set_mutex. destruct (decide (m' = m)); [contradiction | reflexivity]. Qed.

Lemma lock_all_other (prefix : list nat) (L : lock_table) (m : mutex) :
  (forall q, q ∈ prefix -> m <> CheckMu q) ->
  foldl (fun L' q => set_mutex L' (CheckMu q) {| writer := true; readers := 0 |})
        L prefix m = L m.
Proof.
  revert L. induction prefix as [|q prefix IH]; intros L Hm; simpl; [reflexivity|].
  rewrite IH by (intros q' Hq'; apply Hm; right; exact Hq').
  unfold set_mutex. destruct (decide (m = CheckMu q)) as [Heq|Hne]; [|reflexivity].
  exfalso. apply (Hm q); [left | exact Heq].
Qed.

(** The loop of [failing] takes the mutexes of a run of objects that are
    all free. *)
Lemma lock_all_free (prefix : list nat) :
  forall (L : lock_table) (rest other : list lock_op),
    NoDup prefix ->
    (forall q, q ∈ prefix -> L (CheckMu q) = {| writer := false; readers := 0 |}) ->
    schedule (replicate (length prefix) 0%nat)
             {| held := L;
                threads := [(Lock ∘ CheckMu <$> prefix) ++ rest; other] |}
    = Some {| held := foldl (fun L' q => set_mutex L' (CheckMu q)
                                           {| writer := true; readers := 0 |})
                            L prefix;
              threads := [rest; other] |}.
Proof.
  induction prefix as [|q prefix IH]; intros L rest other Hnd Hfree; simpl;
    [reflexivity|].
  apply NoDup_cons in Hnd as [Hq Hnd].
  unfold advance. cbn [threads held lookup list_lookup perform compose].
  rewrite (Hfree q) by left. cbn [writer readers orb negb Nat.eqb].
  cbn [insert list_insert]. apply IH; [exact Hnd|].
  intros q' Hq'. unfold set_mutex.
  destruct (decide (CheckMu q' = CheckMu q)) as [Heq|Hne].
  - inversion Heq. subst q'. contradiction.
  - apply Hfree. right. exact Hq'.
Qed.

(** X15: The status page and a registration can block each other for good:
    [Handler] holds the status mutex for reading while it asks for the
    registry mutex, [Investigate] holds the registry mutex while it asks
    for the status mutex for writing. This needs a non-zero status (so that
    [Handler] calls [failing]) and room in the registry (so that
    [Investigate] calls [update]). *)
Theorem status_page_and_Investigate_can_deadlock
  d (order : list nat) :
  status d <> 0 ->
  Z.of_nat (size (items d)) < treshold ->
  exists cfg,
    schedule [0%nat; 1%nat]
             {| held := all_free;
                threads := [Handler_locks d order; Investigate_locks d] |}
    = Some cfg /\
    deadlocked cfg [0%nat; 1%nat].
Proof.
  intros Hnz Hroom.
  assert (Hs : (status d =? 0) = false) by (apply Z.eqb_neq, Hnz).
  assert (Hr : (Z.of_nat (size (items d)) <? treshold) = true)
    by (apply Z.ltb_lt, Hroom).
  unfold Handler_locks, Investigate_locks, failing_locks. rewrite Hs, Hr.
  eexists. split; [reflexivity|]. split.
  - intros [|[|t]]; reflexivity.
  - intros t Ht. apply elem_of_cons in Ht as [->|Ht];
      [|apply elem_of_cons in Ht as [->|Ht]; [|apply elem_of_nil in Ht; contradiction]];
      eexists _, _; split; reflexivity.
Qed.

(** X16: The status page and the goroutine recording a result can block each
    other for good: the goroutine holds the mutex of its object while it
    asks for the status mutex for writing, [Handler] holds the status mutex
    for reading while [failing] asks for the mutex of that object. This
    needs a non-zero status and the object among the entries [failing]
    visits. *)
Theorem status_page_and_recorder_can_deadlock
  d (order : list nat) (n : string) (p : nat) :
  status d <> 0 ->
  items d !! n = Some p ->
  order ≡ₚ (map_to_list (items d)).*2 ->
  NoDup order ->
  exists ts cfg,
    schedule ts {| held := all_free;
                   threads := [Handler_locks d order; recording_locks p] |}
    = Some cfg /\
    deadlocked cfg [0%nat; 1%nat].
Proof.
  intros Hnz Hn Hperm Hnd.
  assert (Hin : p ∈ order).
  { rewrite Hperm. apply list_elem_of_fmap. exists (n, p). split; [reflexivity|].
    apply elem_of_map_to_list, Hn. }
  apply list_elem_of_split in Hin as (l1 & l2 & ->).
  apply NoDup_app in Hnd as (Hnd1 & Hnot & _).
  assert (Hp : p ∉ l1) by (intros Hp; apply (Hnot p Hp); left).
  assert (Hs : (status d =? 0) = false) by (apply Z.eqb_neq, Hnz).
  unfold Handler_locks, failing_locks, recording_locks. rewrite Hs.
  rewrite fmap_app, fmap_cons.
  exists ([1; 0; 0]%nat ++ replicate (length l1) 0%nat). eexists. split.
  - rewrite (schedule_app [1; 0; 0]%nat _ _
               {| held := set_mutex
                            (set_mutex
                               (set_mutex all_free (CheckMu p)
                                          {| writer := true; readers := 0 |})
                               StatusMu {| writer := false; readers := 1 |})
                            ChecksMu {| writer := false; readers := 1 |};
                  threads :=
                    [(Lock ∘ CheckMu <$> l1) ++
                     (Lock (CheckMu p) :: (Lock ∘ CheckMu <$> l2)) ++
                     (Unlock ∘ CheckMu <$> reverse (l1 ++ p :: l2)) ++
                     [RUnlock ChecksMu] ++ [RUnlock StatusMu];
                     [Lock StatusMu; Unlock StatusMu; Unlock (CheckMu p)]] |})
      by (rewrite <- !app_assoc; reflexivity).
    apply lock_all_free; [exact Hnd1|].
    intros q Hq. rewrite !set_mutex_other; [reflexivity | | discriminate | discriminate].
    intros Heq. inversion Heq. subst q. contradiction.
  - assert (Hheld_p :
      foldl (fun L' q => set_mutex L' (CheckMu q) {| writer := true; readers := 0 |})
            (set_mutex
               (set_mutex
                  (set_mutex all_free (CheckMu p) {| writer := true; readers := 0 |})
                  StatusMu {| writer := false; readers := 1 |})
               ChecksMu {| writer := false; readers := 1 |})
            l1 (CheckMu p) = {| writer := true; readers := 0 |}).
    { rewrite lock_all_other
        by (intros q Hq Heq; inversion Heq; subst q; contradiction).
      rewrite !set_mutex_other by discriminate. apply set_mutex_same. }
    assert (Hheld_s :
      foldl (fun L' q => set_mutex L' (CheckMu q) {| writer := true; readers := 0 |})
            (set_mutex
               (set_mutex
                  (set_mutex all_free (CheckMu p) {| writer := true; readers := 0 |})
                  StatusMu {| writer := false; readers := 1 |})
               ChecksMu {| writer := false; readers := 1 |})
            l1 StatusMu = {| writer := false; readers := 1 |}).
    { rewrite lock_all_other by (intros q Hq Heq; discriminate).
      rewrite set_mutex_other by discriminate. apply set_mutex_same. }
    split.
    + intros [|[|t]]; [| |reflexivity].
      * unfold advance. cbn [threads held lookup list_lookup app perform].
        rewrite Hheld_p. reflexivity.
      * unfold advance. cbn [threads held lookup list_lookup perform].
        rewrite Hheld_s. reflexivity.
    + intros t Ht. apply elem_of_cons in Ht as [->|Ht];
        [|apply elem_of_cons in Ht as [->|Ht]; [|apply elem_of_nil in Ht; contradiction]];
        eexists _, _; (split; [reflexivity|]); cbn [held perform].
      * rewrite Hheld_p. reflexivity.
      * rewrite Hheld_s. reflexivity.
Qed.

(** *** A new check until its first result *)




End Composition.

(** ** The properties at concrete inputs *)

Module Instances.

Import Sample.

(** C1: 64 checks with 64 different names are registered on a new doctor.
    The first 63 calls return nil; the 64th is refused and changes nothing
    (63 names, 63 objects, 63 runners, bits 0..62 set), and the text of the
    error it returns announces a threshold of 64 where the test applied by
    the code is [pos < 63]. *)
Theorem treshold_differs_from_its_message :
  let '(w, errs) := register_all (numbered 64) world0 in
  errs = replicate 63 None ++ [Some "health-check treshold (64) exceeded"] /\
  size (items (doctor w)) = 63%nat /\
  length (heap (doctor w)) = 63%nat /\
  length (runners w) = 63%nat /\
  status (doctor w) = 2 ^ 63 - 1 /\
  register_all (numbered 63) world0 = (w, replicate 63 None) /\
  announced (default None (last errs)) = Some 64 /\
  treshold = 63.
Proof. vm_compute. repeat split; reflexivity. Qed.



Lemma update_flips_only_its_bit_witness :
  U64.in_range 5 /\ 0 <= 2 < U64.width /\
  Z.testbit (update 5 2 true) 2 = negb true /\
  Z.testbit (update 5 2 true) 0 = Z.testbit 5 0.
Proof.
  assert (H5 : U64.in_range 5) by (unfold U64.in_range, U64.modulus, U64.width; lia).
  assert (H2 : 0 <= 2 < U64.width) by (unfold U64.width; lia).
  destruct (update_flips_only_its_bit call 5 2 true H5 H2) as (Hsame & Hother & _).
  split; [exact H5|]. split; [exact H2|]. split; [exact Hsame|].
  apply Hother. lia.
Defined.

Lemma cycle_records_transformed_result_witness :
  let w := world_of (acts call (first_cycle lenient_db) world0) in
  let hc := {| check := lenient_db; healthy := false; msg := "[n/a]"; pos := 0 |} in
  finish (0%nat, 0%nat) (handlers w) = Some [] /\
  heap (doctor w) !! 0%nat = Some hc /\
  0 <= pos hc < U64.width /\
  exists w',
    step call w (EvHandler 0 0 (Returns (Some "connection refused"))) = Next w' /\
    Z.testbit (status (doctor w')) 0 = false /\
    heap (doctor w') !! 0%nat =
      Some {| check := lenient_db; healthy := true; msg := ""; pos := 0 |}.
Proof.
  intros w hc.
  assert (Hf : finish (0%nat, 0%nat) (handlers w) = Some []) by reflexivity.
  assert (Hp : heap (doctor w) !! 0%nat = Some hc) by reflexivity.
  assert (Hr : 0 <= pos hc < U64.width) by (simpl; unfold U64.width; lia).
  destruct (cycle_records_transformed_result call w 0 0 hc
              (Some "connection refused") [] Hf Hp Hr)
    as (w' & Hstep & _ & Hrec).
  split; [exact Hf|]. split; [exact Hp|]. split; [exact Hr|].
  exists w'. split; [exact Hstep|]. exact Hrec.
Defined.

Lemma failing_lists_nonempty_messages_witness :
  Aspect db = None /\ "boom" <> "" /\ (0 < 3)%nat /\
  exists w,
    run call (cycles_of 0 0 3 (Some "boom")) (fst (Investigate 0 db world0)) = Next w /\
    failing (doctor w) = {[ "db" := "boom" ]} /\
    Healthy (doctor w) = false.
Proof.
  assert (Ha : Aspect db = None) by reflexivity.
  assert (Ht : "boom" <> "") by discriminate.
  assert (Hc : (0 < 3)%nat) by lia.
  split; [exact Ha|]. split; [exact Ht|]. split; [exact Hc|].
  exact (proj2 (failing_lists_nonempty_messages call) db 0%nat 3%nat "boom" Ha Ht Hc).
Defined.


Lemma duplicate_name_shares_bit_witness :
  let w := registered [db] in
  is_Some (items (doctor w) !! Name db) /\
  items (doctor w) !! Name cache = None /\
  Z.of_nat (size (items (doctor w))) < treshold /\
  exists w1 w2,
    Investigate 1 db w = (w1, None) /\
    Investigate 2 cache w1 = (w2, None) /\
    size (items (doctor w1)) = 1%nat /\
    pos <$> heap (doctor w2) = [0; 1; 1].
Proof.
  intros w.
  assert (Hd : is_Some (items (doctor w) !! Name db)) by (exists 0%nat; reflexivity).
  assert (Hc : items (doctor w) !! Name cache = None) by reflexivity.
  assert (Hr : Z.of_nat (size (items (doctor w))) < treshold) by reflexivity.
  destruct (duplicate_name_shares_bit call w 1 2 db cache Hd Hc Hr)
    as (w1 & w2 & H1 & H2 & _ & Hsize & Hheap & _).
  split; [exact Hd|]. split; [exact Hc|]. split; [exact Hr|].
  exists w1, w2. split; [exact H1|]. split; [exact H2|].
  split; [exact Hsize|]. rewrite Hheap. reflexivity.
Defined.

(** C2 as stated fails: "db" passed its first cycle, the handler of its
    second cycle has not returned when the deadline passes. The runner has
    gone on to its interval wait, yet the bit of "db" is clear, its state is
    healthy and [Healthy] answers true. *)
Lemma deadline_leaves_check_healthy :
  let w := world_of (acts call second_call_hangs world0) in
  acts call second_call_hangs world0 = Next w /\
  handlers w = [(0%nat, 1%nat)] /\
  pc <$> runners w = [Sleeping] /\
  Z.testbit (status (doctor w)) 0 = false /\
  healthy <$> heap (doctor w) = [true] /\
  Healthy (doctor w) = true /\
  failing (doctor w) = ∅.
Proof. vm_compute. repeat split; reflexivity. Qed.

Lemma deadline_releases_runner_only_witness :
  let w := world_of (acts call (first_cycle db) world0) in
  let ru := {| ctx := 0; cycles := 1; pc := Waiting 0 |} in
  runners w !! 0%nat = Some ru /\
  pc ru = Waiting 0 /\
  exists w',
    step call w (EvDeadline 0) = Next w' /\
    doctor w' = doctor w /\
    handlers w' = handlers w.
Proof.
  intros w ru.
  assert (Hru : runners w !! 0%nat = Some ru) by reflexivity.
  assert (Hpc : pc ru = Waiting 0) by reflexivity.
  destruct (deadline_releases_runner_only call w 0 0 ru Hru Hpc)
    as (w' & Hstep & _ & _ & Hdoc & Hhs & _).
  split; [exact Hru|]. split; [exact Hpc|].
  exists w'. split; [exact Hstep|]. split; [exact Hdoc | exact Hhs].
Defined.

(** C9 as stated fails: the handler of "db" panics in its first cycle. No
    failing result is recorded; the run ends in the death of the process. *)
Lemma panicking_handler_is_not_caught :
  acts call first_call_panics world0 =
    Crash "invalid memory address or nil pointer dereference" /\
  forall w, acts call first_call_panics world0 <> Next w.
Proof. split; [reflexivity | intros w; discriminate]. Qed.

Lemma handler_panic_ends_process_witness :
  let w := world_of (acts call (first_cycle db) world0) in
  finish (0%nat, 0%nat) (handlers w) = Some [] /\
  run call [EvHandler 0 0 (Panics "boom"); EvAfter 0; EvCheck 0] w = Crash "boom".
Proof.
  intros w.
  assert (Hf : finish (0%nat, 0%nat) (handlers w) = Some []) by reflexivity.
  destruct (handler_panic_ends_process call w 0 0 "boom" [] [EvAfter 0; EvCheck 0] Hf)
    as (_ & Hrun & _).
  split; [exact Hf | exact Hrun].
Defined.

(** The aspect decides what is recorded, in both directions: a refused
    connection forgiven by the aspect is recorded as success, a success
    distrusted by the aspect as a failure. *)
Example aspect_has_the_last_word :
  let forgiven :=
    world_of (acts call (first_cycle lenient_db ++
                         [Event (EvHandler 0 0 (Returns (Some "connection refused")))])
                   world0) in
  let distrusted :=
    world_of (acts call (first_cycle (with_aspect "db" distrust) ++
                         [Event (EvHandler 0 0 (Returns None))])
                   world0) in
  Healthy (doctor forgiven) = true /\
  failing (doctor forgiven) = ∅ /\
  Healthy (doctor distrusted) = false /\
  failing (doctor distrusted) = {[ "db" := "unverified: db" ]}.
Proof. vm_compute. repeat split; reflexivity. Qed.

(** The handler call abandoned at the deadline still records its result
    when it returns, whatever the runner is doing by then. *)
Example late_return_is_recorded :
  let w := world_of (acts call (second_call_hangs ++
                                [Event (EvAfter 0); Event (EvCheck 0);
                                 Event (EvHandler 0 1 (Returns (Some "timed out")))])
                          world0) in
  pc <$> runners w = [Waiting 2] /\
  handlers w = [(0%nat, 2%nat)] /\
  Healthy (doctor w) = false /\
  failing (doctor w) = {[ "db" := "timed out" ]}.
Proof. vm_compute. repeat split; reflexivity. Qed.

End Instances.

(** ** The further properties at concrete inputs *)

Module MoreInstances.

Import Sample Scenarios.

Lemma in_range_5 : U64.in_range 5.
Proof. unfold U64.in_range, U64.modulus, U64.width. lia. Defined.

Lemma update_last_write_wins_witness :
  U64.in_range 5 /\ update (update 5 2 true) 2 false = update 5 2 false.
Proof.
  split; [exact in_range_5|].
  exact (update_last_write_wins 5 2 true false in_range_5).
Defined.

Lemma update_commutes_witness :
  U64.in_range 5 /\ 0 <> 3 /\
  update (update 5 0 true) 3 false = update (update 5 3 false) 0 true.
Proof.
  assert (Hne : 0 <> 3) by lia.
  split; [exact in_range_5|]. split; [exact Hne|].
  exact (update_commutes 5 0 3 true false in_range_5 Hne).
Defined.



Lemma db_up_cache_down_distinct : NoDup (call_names db_up_cache_down).
Proof. apply (bool_decide_unpack (NoDup _)). vm_compute. exact I. Defined.

Lemma db_up_cache_down_runs :
  acts call db_up_cache_down (NewWorld handler aspect) = Next (after db_up_cache_down).
Proof. vm_compute. reflexivity. Defined.

Lemma Healthy_iff_every_check_healthy_witness :
  NoDup (call_names db_up_cache_down) /\
  acts call db_up_cache_down (NewWorld handler aspect) = Next (after db_up_cache_down) /\
  (Healthy (doctor (after db_up_cache_down)) = false <->
   exists (n : string) (p : nat) hc,
     items (doctor (after db_up_cache_down)) !! n = Some p /\
     heap (doctor (after db_up_cache_down)) !! p = Some hc /\
     healthy hc = false).
Proof.
  split; [exact db_up_cache_down_distinct|].
  split; [exact db_up_cache_down_runs|].
  exact (proj2 (Healthy_iff_every_check_healthy call db_up_cache_down
                  (after db_up_cache_down)
                  db_up_cache_down_distinct db_up_cache_down_runs)).
Defined.

Lemma failing_lists_unhealthy_checks_witness :
  NoDup (call_names db_up_cache_down) /\
  acts call db_up_cache_down (NewWorld handler aspect) = Next (after db_up_cache_down) /\
  (Healthy (doctor (after db_up_cache_down)) = true ->
   failing (doctor (after db_up_cache_down)) = ∅).
Proof.
  split; [exact db_up_cache_down_distinct|].
  split; [exact db_up_cache_down_runs|].
  exact (proj2 (failing_lists_unhealthy_checks call db_up_cache_down
                  (after db_up_cache_down)
                  db_up_cache_down_distinct db_up_cache_down_runs)).
Defined.

Lemma status_page_reports_health_witness :
  NoDup (call_names db_up_cache_down) /\
  acts call db_up_cache_down (NewWorld handler aspect) = Next (after db_up_cache_down) /\
  contentType (Doctor_Handler (doctor (after db_up_cache_down))) =
    "application/json; charset=utf-8".
Proof.
  split; [exact db_up_cache_down_distinct|].
  split; [exact db_up_cache_down_runs|].
  exact (proj1 (status_page_reports_health call db_up_cache_down
                  (after db_up_cache_down)
                  db_up_cache_down_distinct db_up_cache_down_runs)).
Defined.

Lemma listener_closes_iff_some_check_unhealthy_witness :
  NoDup (call_names db_up_cache_down) /\
  acts call db_up_cache_down (NewWorld handler aspect) = Next (after db_up_cache_down) /\
  (7%nat ∉ ({[ 3%nat ]} : gset nat)) /\
  (Accept (doctor (after db_up_cache_down)) (Some 7%nat, None) {[ 3%nat ]}).1 =
    Accepts (Some 7%nat) None.
Proof.
  assert (Hc : 7%nat ∉ ({[ 3%nat ]} : gset nat)).
  { intros Hin. apply elem_of_singleton in Hin. discriminate. }
  split; [exact db_up_cache_down_distinct|].
  split; [exact db_up_cache_down_runs|]. split; [exact Hc|].
  exact (proj1 (listener_closes_iff_some_check_unhealthy call db_up_cache_down
                  (after db_up_cache_down) 7 {[ 3%nat ]}
                  db_up_cache_down_distinct db_up_cache_down_runs Hc)).
Defined.

Lemma db_twice_then_cache_runs :
  acts call db_twice_then_cache (NewWorld handler aspect) = Next (after db_twice_then_cache).
Proof. vm_compute. reflexivity. Defined.

Lemma reachable_status_is_attributed_witness :
  acts call db_twice_then_cache (NewWorld handler aspect) = Next (after db_twice_then_cache) /\
  (size (items (doctor (after db_twice_then_cache))) <= 63)%nat.
Proof.
  split; [exact db_twice_then_cache_runs|].
  exact (proj1 (reachable_status_is_attributed call db_twice_then_cache
                  (after db_twice_then_cache) db_twice_then_cache_runs)).
Defined.

Lemma cancelled_in_first_cycle_runs :
  acts call cancelled_in_first_cycle (NewWorld handler aspect) =
    Next (after cancelled_in_first_cycle).
Proof. vm_compute. reflexivity. Defined.

Lemma reachable_goroutines_are_orderly_witness :
  acts call cancelled_in_first_cycle (NewWorld handler aspect) =
    Next (after cancelled_in_first_cycle) /\
  length (runners (after cancelled_in_first_cycle)) =
    length (heap (doctor (after cancelled_in_first_cycle))).
Proof.
  split; [exact cancelled_in_first_cycle_runs|].
  exact (proj1 (reachable_goroutines_are_orderly call cancelled_in_first_cycle
                  (after cancelled_in_first_cycle) cancelled_in_first_cycle_runs)).
Defined.

Lemma returned_runner_never_runs_again_witness :
  let w := after cancelled_in_first_cycle in
  let ru := {| ctx := 0; cycles := 1; pc := Returned |} in
  let l := [Event (EvHandler 0 0 (Returns None)); Call 0 cache; Event (EvCancel 1)] in
  runners w !! 0%nat = Some ru /\ pc ru = Returned /\
  acts call l w = Next (world_of (acts call l w)) /\
  runners (world_of (acts call l w)) !! 0%nat = Some ru.
Proof.
  intros w ru l.
  assert (Hp : runners w !! 0%nat = Some ru) by reflexivity.
  assert (Hpc : pc ru = Returned) by reflexivity.
  assert (Hacts : acts call l w = Next (world_of (acts call l w)))
    by (vm_compute; reflexivity).
  split; [exact Hp|]. split; [exact Hpc|]. split; [exact Hacts|].
  exact (proj1 (returned_runner_never_runs_again call l w
                  (world_of (acts call l w)) 0 ru Hp Hpc Hacts)).
Defined.

Lemma cycle_is_recorded_at_most_once_witness :
  let w := after (first_cycle db) in
  let w1 := world_of (step call w (EvHandler 0 0 (Returns None))) in
  let l' := [Event (EvAfter 0); Event (EvCheck 0)] in
  let w2 := world_of (acts call l' w1) in
  acts call (first_cycle db) (NewWorld handler aspect) = Next w /\
  step call w (EvHandler 0 0 (Returns None)) = Next w1 /\
  acts call l' w1 = Next w2 /\
  step call w2 (EvHandler 0 0 (Returns (Some "again"))) = Stuck.
Proof.
  intros w w1 l' w2.
  assert (H1 : acts call (first_cycle db) (NewWorld handler aspect) = Next w)
    by (vm_compute; reflexivity).
  assert (H2 : step call w (EvHandler 0 0 (Returns None)) = Next w1)
    by (vm_compute; reflexivity).
  assert (H3 : acts call l' w1 = Next w2) by (vm_compute; reflexivity).
  split; [exact H1|]. split; [exact H2|]. split; [exact H3|].
  exact (cycle_is_recorded_at_most_once call (first_cycle db) l' w w1 w2 0 0 None
           (Returns (Some "again")) H1 H2 H3).
Defined.

Lemma same_name_registers_without_bound_witness :
  let w := registered [db] in
  is_Some (items (doctor w) !! Name db) /\
  Z.of_nat (size (items (doctor w))) < treshold /\
  exists w',
    register_all (replicate 70 (1%nat, db)) w = (w', replicate 70 None) /\
    size (items (doctor w')) = size (items (doctor w)).
Proof.
  intros w.
  assert (Hin : is_Some (items (doctor w) !! Name db)) by (exists 0%nat; reflexivity).
  assert (Hroom : Z.of_nat (size (items (doctor w))) < treshold) by reflexivity.
  split; [exact Hin|]. split; [exact Hroom|].
  destruct (same_name_registers_without_bound w 1 db 70 Hin Hroom)
    as (w' & Hreg & Hsize & _).
  exists w'. split; [exact Hreg | exact Hsize].
Defined.

Lemma status_page_and_Investigate_can_deadlock_witness :
  let d := doctor (registered [db]) in
  status d <> 0 /\ Z.of_nat (size (items d)) < treshold /\
  exists cfg,
    schedule [0%nat; 1%nat]
             {| held := all_free;
                threads := [Handler_locks d [0%nat]; Investigate_locks d] |}
    = Some cfg /\
    deadlocked cfg [0%nat; 1%nat].
Proof.
  intros d.
  assert (Hnz : status d <> 0) by (vm_compute; discriminate).
  assert (Hroom : Z.of_nat (size (items d)) < treshold) by reflexivity.
  split; [exact Hnz|]. split; [exact Hroom|].
  exact (status_page_and_Investigate_can_deadlock d [0%nat] Hnz Hroom).
Defined.

Lemma status_page_and_recorder_can_deadlock_witness :
  let d := doctor (registered [db]) in
  status d <> 0 /\ items d !! "db" = Some 0%nat /\
  [0%nat] ≡ₚ (map_to_list (items d)).*2 /\ NoDup [0%nat] /\
  exists ts cfg,
    schedule ts {| held := all_free;
                   threads := [Handler_locks d [0%nat]; recording_locks 0] |}
    = Some cfg /\
    deadlocked cfg [0%nat; 1%nat].
Proof.
  intros d.
  assert (Hnz : status d <> 0) by (vm_compute; discriminate).
  assert (Hn : items d !! "db" = Some 0%nat) by reflexivity.
  assert (Hperm : [0%nat] ≡ₚ (map_to_list (items d)).*2) by (vm_compute; reflexivity).
  assert (Hnd : NoDup [0%nat]) by apply NoDup_singleton.
  split; [exact Hnz|]. split; [exact Hn|]. split; [exact Hperm|]. split; [exact Hnd|].
  exact (status_page_and_recorder_can_deadlock d [0%nat] "db" 0 Hnz Hn Hperm Hnd).
Defined.

End MoreInstances.
